(** * Cut calculator: a shallow embedding of the cut-plan computation

  Embedded sources:
  - [src/app/page.tsx]: unit table, [convertToMm], [convertFromMm],
    [getKerfInMm] and the kerf-aware [calculateOptimalCutPlan];
  - [src/components/aluminum-extrusion-calculator.tsx]: the kerf-free
    [calculateOptimalCutPlan].

  Numbers.  A JavaScript [number] that carries a length is modelled as an
  exact rational ([Q], compared with [==]); a [number] that carries a
  count (quantity, number of extrusions, loop index) is modelled as an
  integer ([Z]).  Rounding of IEEE doubles is therefore outside the model:
  every statement below is about exact arithmetic. *)

From Stdlib Require Import ZArith QArith Qfield Qminmax Qabs Qround Lqa Lia List Bool.
From Stdlib Require Import Sorted Permutation Setoid Morphisms.
Import ListNotations.

Open Scope Q_scope.

(** ** Data model *)

(** [interface Cut { length: number; quantity: number }] *)
Module Cut.
Record t : Type := mk { length : Q; quantity : Z }.
End Cut.

(** [interface CutPlan { cuts: number[]; waste: number }] *)
Module CutPlan.
Record t : Type := mk { cuts : list Q; waste : Q }.
End CutPlan.

(** [type Unit = "mm" | "cm" | "m" | "in" | "ft" | "yd"]
    (["in"] is spelled [inch], [in] being reserved). *)
Inductive Unit : Type := mm | cm | m | inch | ft | yd.

Definition unitConversions (u : Unit) : Q :=
  match u with
  | mm => 1
  | cm => 10
  | m => 1000
  | inch => 254 # 10
  | ft => 3048 # 10
  | yd => 9144 # 10
  end.

(** ** The array operations the source relies on *)

Module Array.
Section Ops.
Context {A : Type}.

(** [Array.prototype.some]. *)
Definition some (p : A -> bool) (l : list A) : bool := existsb p l.

(** [Array.prototype.sort(cmp)].  The language guarantees a stable sort;
    for a comparator that is a consistent ordering this fixes the result,
    whatever algorithm the engine runs (see [stable_sort_unique] below).
    The model is a right-to-left insertion sort: [x], which stood before
    every element of [l], is put in front of the first [y] with
    [cmp x y <= 0]. *)
Fixpoint insert (cmp : A -> A -> Q) (x : A) (l : list A) : list A :=
  match l with
  | [] => [x]
  | y :: l' =>
      if Qle_bool (cmp x y) 0 then x :: y :: l' else y :: insert cmp x l'
  end.

Definition sort (cmp : A -> A -> Q) (l : list A) : list A :=
  fold_right (insert cmp) [] l.

(** [Array.prototype.filter((element, index) => ...)]; [from] is the index
    of the first element of [l]. *)
Fixpoint filterFrom (from : nat) (p : A -> nat -> bool) (l : list A)
    : list A :=
  match l with
  | [] => []
  | x :: l' =>
      if p x from then x :: filterFrom (S from) p l'
      else filterFrom (S from) p l'
  end.

Definition filter (p : A -> nat -> bool) (l : list A) : list A :=
  filterFrom 0 p l.

(** [Array.prototype.reduce(f, init)]. *)
Definition reduce {B : Type} (f : B -> A -> B) (init : B) (l : list A) : B :=
  fold_left f l init.
End Ops.
End Array.

(** ** The allocation loops

    The two source files run the same three loops; they differ in the
    stock length they start a bar with and in the number they push for a
    placed cut ([cut.length - kerfWidthMm] in [page.tsx], [cut.length] in
    the component).  Both are parameters here: [stockLength], and [pushed],
    a function of [cut.length]. *)

Section Allocation.
Variable stockLength : Q.
Variable numExtrusions : Z.
Variable pushed : Q -> Q.

(** The guard of the inner [while]:
    [cut.quantity > 0 && remainingLength >= cut.length]. *)
Definition fits (cut : Cut.t) (remainingLength : Q) : bool :=
  (0 <? Cut.quantity cut)%Z && Qle_bool (Cut.length cut) remainingLength.

(** [while (cut.quantity > 0 && remainingLength >= cut.length) {
       currentCuts.push(...); remainingLength -= cut.length; cut.quantity--; }]
    Each iteration decrements the quantity, so [cut.quantity] iterations
    are enough: see [placeCut_spec] and [placeCut_fuel]. *)
Fixpoint placeWhile (fuel : nat) (cut : Cut.t) (currentCuts : list Q)
    (remainingLength : Q) : Cut.t * list Q * Q :=
  match fuel with
  | O => (cut, currentCuts, remainingLength)
  | S fuel' =>
      if fits cut remainingLength then
        placeWhile fuel'
          (Cut.mk (Cut.length cut) (Cut.quantity cut - 1))
          (currentCuts ++ [pushed (Cut.length cut)])
          (remainingLength - Cut.length cut)
      else (cut, currentCuts, remainingLength)
  end.

Definition placeCut (cut : Cut.t) (currentCuts : list Q)
    (remainingLength : Q) : Cut.t * list Q * Q :=
  placeWhile (Z.to_nat (Cut.quantity cut)) cut currentCuts remainingLength.

(** [for (const cut of remainingCuts) { while ... }]: the objects of the
    array are updated in place, so the array is returned with them. *)
Fixpoint forEachCut (remainingCuts : list Cut.t) (currentCuts : list Q)
    (remainingLength : Q) : list Cut.t * list Q * Q :=
  match remainingCuts with
  | [] => ([], currentCuts, remainingLength)
  | cut :: rest =>
      let '(cut', currentCuts', remainingLength') :=
        placeCut cut currentCuts remainingLength in
      let '(rest', currentCuts'', remainingLength'') :=
        forEachCut rest currentCuts' remainingLength' in
      (cut' :: rest', currentCuts'', remainingLength'')
  end.

(** One bar: [let remainingLength = stockLength; const currentCuts = [];
    for ...; plans.push({cuts: currentCuts, waste: remainingLength})]. *)
Definition cutBar (remainingCuts : list Cut.t) : list Cut.t * CutPlan.t :=
  let '(remainingCuts', currentCuts, remainingLength) :=
    forEachCut remainingCuts [] stockLength in
  (remainingCuts', CutPlan.mk currentCuts remainingLength).

(** [while (currentExtrusionIndex < numExtrusions &&
           remainingCuts.some((cut) => cut.quantity > 0)) { ... }] *)
Definition demandLeft (remainingCuts : list Cut.t) : bool :=
  Array.some (fun cut => (0 <? Cut.quantity cut)%Z) remainingCuts.

Fixpoint fillWhile (fuel : nat) (currentExtrusionIndex : Z)
    (remainingCuts : list Cut.t) (plans : list CutPlan.t)
    : Z * list Cut.t * list CutPlan.t :=
  match fuel with
  | O => (currentExtrusionIndex, remainingCuts, plans)
  | S fuel' =>
      if (currentExtrusionIndex <? numExtrusions)%Z
         && demandLeft remainingCuts then
        let '(remainingCuts', plan) := cutBar remainingCuts in
        fillWhile fuel' (currentExtrusionIndex + 1)%Z remainingCuts'
          (plans ++ [plan])
      else (currentExtrusionIndex, remainingCuts, plans)
  end.

(** [while (currentExtrusionIndex < numExtrusions) {
       plans.push({cuts: [], waste: stockLength}); currentExtrusionIndex++; }] *)
Fixpoint padWhile (fuel : nat) (currentExtrusionIndex : Z)
    (plans : list CutPlan.t) : Z * list CutPlan.t :=
  match fuel with
  | O => (currentExtrusionIndex, plans)
  | S fuel' =>
      if (currentExtrusionIndex <? numExtrusions)%Z then
        padWhile fuel' (currentExtrusionIndex + 1)%Z
          (plans ++ [CutPlan.mk [] stockLength])
      else (currentExtrusionIndex, plans)
  end.

(** Both outer loops advance [currentExtrusionIndex] by one per
    iteration and stop at [numExtrusions]: [numExtrusions - index]
    iterations are enough (see [fillWhile_fuel], [padWhile_fuel]). *)
Definition barsLeft (currentExtrusionIndex : Z) : nat :=
  Z.to_nat (numExtrusions - currentExtrusionIndex).

(** Everything from [const plans = []] to the end of the second loop. *)
Definition allocate (sortedCuts : list Cut.t) : list CutPlan.t :=
  let plans := [] in
  let remainingCuts := sortedCuts in
  let currentExtrusionIndex := 0%Z in
  let '(currentExtrusionIndex', _, plans') :=
    fillWhile (barsLeft currentExtrusionIndex)
      currentExtrusionIndex remainingCuts plans in
  snd (padWhile (barsLeft currentExtrusionIndex')
         currentExtrusionIndex' plans').
End Allocation.

(** The comparator of both files: [(a, b) => b.length - a.length]. *)
Definition byLengthDesc (a b : Cut.t) : Q := Cut.length b - Cut.length a.

(** ** [src/app/page.tsx] *)

Module Page.

(** The React state the callbacks close over. *)
Record State : Type := mkState {
  numExtrusions : Z;
  extrusionLength : Q;
  cuts : list Cut.t;
  unit : Unit;
  kerfWidth : Q;
  kerfUnit : Unit
}.

Definition convertToMm (s : State) (value : Q) : Q :=
  value * unitConversions (unit s).

Definition convertFromMm (s : State) (value : Q) : Q :=
  value / unitConversions (unit s).

Definition getKerfInMm (s : State) : Q :=
  kerfWidth s * unitConversions (kerfUnit s).

(** [cuts.map((cut) => ({...cut, length: convertToMm(cut.length) + kerfWidthMm}))]:
    fresh objects, so the caller's [cuts] are never written to. *)
Definition convertedCuts (s : State) : list Cut.t :=
  map (fun cut =>
         Cut.mk (convertToMm s (Cut.length cut) + getKerfInMm s)
                (Cut.quantity cut))
      (cuts s).

Definition sortedCuts (s : State) : list Cut.t :=
  Array.sort byLengthDesc (convertedCuts s).

(** The plans before the final [plans.map], in millimetres. *)
Definition plansMm (s : State) (sorted : list Cut.t) : list CutPlan.t :=
  let stockLength := convertToMm s (extrusionLength s) in
  let kerfWidthMm := getKerfInMm s in
  allocate stockLength (numExtrusions s)
    (fun length => length - kerfWidthMm) sorted.

(** [plans.map((plan) => ({cuts: plan.cuts.map(convertFromMm),
                           waste: convertFromMm(plan.waste)}))] *)
Definition displayPlan (s : State) (plan : CutPlan.t) : CutPlan.t :=
  CutPlan.mk (map (convertFromMm s) (CutPlan.cuts plan))
             (convertFromMm s (CutPlan.waste plan)).

Definition calculateOptimalCutPlan (s : State) : list CutPlan.t :=
  map (displayPlan s) (plansMm s (sortedCuts s)).

(** *** The rest of the component: derived values, state updates, handlers *)

(** [useMemo(() => calculateOptimalCutPlan(), [calculateOptimalCutPlan])] *)
Definition cutPlans (s : State) : list CutPlan.t := calculateOptimalCutPlan s.

(** [cuts.reduce((acc, cut) => acc + cut.quantity, 0)] *)
Definition totalCutsNeeded (s : State) : Z :=
  Array.reduce (fun acc cut => (acc + Cut.quantity cut)%Z) 0%Z (cuts s).

(** [cutPlans.reduce((acc, plan) => acc + plan.cuts.length, 0)] *)
Definition totalCutsMade (s : State) : Z :=
  Array.reduce
    (fun acc plan => (acc + Z.of_nat (List.length (CutPlan.cuts plan)))%Z)
    0%Z (cutPlans s).

(** The summary line of one request:
    [cutPlans.reduce((sum, plan) =>
       sum + plan.cuts.filter((c) => c === cut.length).length, 0)] *)
Definition cutsMadeFor (s : State) (cut : Cut.t) : Z :=
  Array.reduce
    (fun sum plan =>
       (sum + Z.of_nat
                (List.length
                   (List.filter (fun c => Qeq_bool c (Cut.length cut))
                      (CutPlan.cuts plan))))%Z)
    0%Z (cutPlans s).

(** [cutPlans.reduce((sum, plan) => sum + plan.waste, 0)] *)
Definition totalWaste (s : State) : Q :=
  Array.reduce (fun sum plan => sum + CutPlan.waste plan) 0 (cutPlans s).

(** [cutPlans.filter((plan) => plan.cuts.length > 0).length] *)
Definition extrusionsUsed (s : State) : nat :=
  List.length
    (Array.filter
       (fun plan _ => (0 <? List.length (CutPlan.cuts plan))%nat)
       (cutPlans s)).

(** The red mark of a request row:
    [convertToMm(cut.length) > convertToMm(extrusionLength)]. *)
Definition exceedsExtrusionLength (s : State) (cut : Cut.t) : bool :=
  negb (Qle_bool (convertToMm s (Cut.length cut))
                 (convertToMm s (extrusionLength s))).

(** [setCuts(...)]: the state with another list of requests. *)
Definition setCuts (s : State) (newCuts : list Cut.t) : State :=
  mkState (numExtrusions s) (extrusionLength s) newCuts (unit s)
    (kerfWidth s) (kerfUnit s).

(** [(prevCuts) => [...prevCuts, { length: 100, quantity: 1 }]] *)
Definition addCut (prevCuts : list Cut.t) : list Cut.t :=
  prevCuts ++ [Cut.mk 100 1].

(** The pair [field, value] of [updateCut]: a length is a rational, a
    quantity an integer. *)
Inductive FieldValue : Type :=
| lengthValue (value : Q)
| quantityValue (value : Z).

(** [updatedCuts[index][field] = value] on an object. *)
Definition assignField (cut : Cut.t) (fv : FieldValue) : Cut.t :=
  match fv with
  | lengthValue value => Cut.mk value (Cut.quantity cut)
  | quantityValue value => Cut.mk (Cut.length cut) value
  end.

(** [(prevCuts) => { const updatedCuts = [...prevCuts];
                     updatedCuts[index][field] = value; return updatedCuts; }]
    Without an element at [index], [updatedCuts[index]] is [undefined] and
    the assignment throws a TypeError: [None].  (The object written to is
    shared with [prevCuts]; the array returned is what the state becomes.) *)
Fixpoint updateCut (index : nat) (fv : FieldValue) (prevCuts : list Cut.t)
    : option (list Cut.t) :=
  match prevCuts, index with
  | [], _ => None
  | cut :: rest, O => Some (assignField cut fv :: rest)
  | cut :: rest, S index' =>
      match updateCut index' fv rest with
      | Some rest' => Some (cut :: rest')
      | None => None
      end
  end.

(** [(prevCuts) => prevCuts.filter((_, i) => i !== index)] *)
Definition removeCut (index : nat) (prevCuts : list Cut.t) : list Cut.t :=
  Array.filter (fun _ i => negb (i =? index)%nat) prevCuts.

(** What [parseInt] and [parseFloat] give: a number, or NaN ([None]).
    [x || 0] is [0] when [x] is NaN or zero. *)
Definition orZeroZ (parsed : option Z) : Z :=
  match parsed with
  | Some v => if (v =? 0)%Z then 0%Z else v
  | None => 0%Z
  end.

Definition orZeroQ (parsed : option Q) : Q :=
  match parsed with
  | Some v => if Qeq_bool v 0 then 0 else v
  | None => 0
  end.

(** [Number(x.toFixed(2))]: from [10^21] on, [toFixed] prints the number
    itself; below, it prints the sign and the integer [n] for which
    [n / 100] is nearest to the magnitude, the larger of two candidates. *)
Definition toFixed2 (x : Q) : Q :=
  if Qle_bool (inject_Z (10 ^ 21)) (Qabs x) then x
  else
    let n := Qfloor (Qabs x * 100 + (1 # 2)) in
    if Qle_bool 0 x then inject_Z n / 100 else - (inject_Z n / 100).

(** The effect that runs when [unit] has changed:
    [setExtrusionLength((prev) => Number((prev * f / f).toFixed(2)))] and
    the same for the length of every request, [f] being the factor of the
    new unit. *)
Definition unitEffect (s : State) : State :=
  let f := unitConversions (unit s) in
  mkState (numExtrusions s)
    (toFixed2 (extrusionLength s * f / f))
    (map (fun cut =>
            Cut.mk (toFixed2 (Cut.length cut * f / f)) (Cut.quantity cut))
         (cuts s))
    (unit s) (kerfWidth s) (kerfUnit s).

Definition sameUnit (u v : Unit) : bool :=
  match u, v with
  | mm, mm | cm, cm | m, m | inch, inch | ft, ft | yd, yd => true
  | _, _ => false
  end.

(** What the user can do. *)
Inductive Event : Type :=
| changeNumExtrusions (parsed : option Z)
| changeExtrusionLength (parsed : option Z)
| changeUnit (value : Unit)
| changeKerfWidth (parsed : option Q)
| changeKerfUnit (value : Unit)
| changeCutLength (index : nat) (parsed : option Q)
| changeCutQuantity (index : nat) (parsed : option Z)
| clickRemove (index : nat)
| clickAdd.

(** The handlers of the form.  [None]: the event cannot happen (no row
    [index], or the remove button is disabled because
    [cuts.length === 1]). *)
Definition handle (s : State) (e : Event) : option State :=
  match e with
  | changeNumExtrusions parsed =>
      (* setNumExtrusions(Math.max(1, parseInt(e.target.value) || 0)) *)
      Some (mkState (Z.max 1 (orZeroZ parsed)) (extrusionLength s) (cuts s)
              (unit s) (kerfWidth s) (kerfUnit s))
  | changeExtrusionLength parsed =>
      (* setExtrusionLength(Math.max(1, parseInt(e.target.value) || 0)) *)
      Some (mkState (numExtrusions s) (inject_Z (Z.max 1 (orZeroZ parsed)))
              (cuts s) (unit s) (kerfWidth s) (kerfUnit s))
  | changeUnit value =>
      (* setUnit(value), then the effect if [unit] has changed *)
      if sameUnit value (unit s) then Some s
      else Some (unitEffect
                   (mkState (numExtrusions s) (extrusionLength s) (cuts s)
                      value (kerfWidth s) (kerfUnit s)))
  | changeKerfWidth parsed =>
      (* setKerfWidth(Math.max(0, parseFloat(e.target.value) || 0)) *)
      Some (mkState (numExtrusions s) (extrusionLength s) (cuts s) (unit s)
              (Qmax 0 (orZeroQ parsed)) (kerfUnit s))
  | changeKerfUnit value =>
      Some (mkState (numExtrusions s) (extrusionLength s) (cuts s) (unit s)
              (kerfWidth s) value)
  | changeCutLength index parsed =>
      (* updateCut(index, "length", Math.max(1, parseFloat(...) || 0)) *)
      option_map (setCuts s)
        (updateCut index (lengthValue (Qmax 1 (orZeroQ parsed))) (cuts s))
  | changeCutQuantity index parsed =>
      (* updateCut(index, "quantity", Math.max(1, parseInt(...) || 0)) *)
      option_map (setCuts s)
        (updateCut index (quantityValue (Z.max 1 (orZeroZ parsed))) (cuts s))
  | clickRemove index =>
      (* onClick={() => removeCut(index)} disabled={cuts.length === 1} *)
      if (List.length (cuts s) =? 1)%nat
         || negb (index <? List.length (cuts s))%nat
      then None
      else Some (setCuts s (removeCut index (cuts s)))
  | clickAdd => Some (setCuts s (addCut (cuts s)))
  end.

(** The state of [useState] at mount, after the effect has run once. *)
Definition initialState : State :=
  unitEffect (mkState 10 2000 [Cut.mk 1500 6] mm (32 # 10) mm).

End Page.

(** ** [src/components/aluminum-extrusion-calculator.tsx] *)

Module Component.

Record State : Type := mkState {
  numExtrusions : Z;
  extrusionLength : Q;
  cuts : list Cut.t
}.

(** [cuts.map(cut => ({ ...cut })).sort((a, b) => b.length - a.length)] *)
Definition sortedCuts (s : State) : list Cut.t :=
  Array.sort byLengthDesc
    (map (fun cut => Cut.mk (Cut.length cut) (Cut.quantity cut)) (cuts s)).

Definition calculateOptimalCutPlan (s : State) : list CutPlan.t :=
  allocate (extrusionLength s) (numExtrusions s) (fun length => length) (sortedCuts s).

End Component.

(** ** Vocabulary of the statements *)

(** [sum(cuts)]. *)
Definition sumQ (l : list Q) : Q := fold_right Qplus 0 l.

(** The number of entries of [l] that satisfy [p], as an integer. *)
Definition countIf (p : Q -> bool) (l : list Q) : Z :=
  Z.of_nat (List.length (filter p l)).

(** The pieces still wanted by the requests whose length satisfies [sel];
    a quantity that is not positive asks for nothing. *)
Fixpoint demand (sel : Q -> bool) (l : list Cut.t) : Z :=
  match l with
  | [] => 0
  | cut :: rest =>
      if sel (Cut.length cut)
      then Z.max 0 (Cut.quantity cut) + demand sel rest
      else demand sel rest
  end%Z.

(** Requests in descending order of length. *)
Definition descSorted (l : list Cut.t) : Prop :=
  StronglySorted (fun a b => Cut.length b <= Cut.length a) l.

(** The requests whose length is [len]. *)
Definition ofLength (len : Q) (l : list Cut.t) : list Cut.t :=
  filter (fun cut => Qeq_bool (Cut.length cut) len) l.

(** What [Array.prototype.sort] promises for the comparator [byLengthDesc]:
    [sorted] is in descending order of length, and the requests of any one
    length are those of [l], in the order they have in [l] (so [sorted] is
    a stable rearrangement of [l]). *)
Definition stableDescSort (l sorted : list Cut.t) : Prop :=
  descSorted sorted /\ forall len, ofLength len sorted = ofLength len l.

(** The placed cuts that satisfy [p], over a sequence of plans. *)
Fixpoint placedCount (p : Q -> bool) (plans : list CutPlan.t) : Z :=
  match plans with
  | [] => 0
  | plan :: rest => countIf p (CutPlan.cuts plan) + placedCount p rest
  end%Z.

Definition anyLength (_ : Q) : bool := true.

Definition emptyPlan (plan : CutPlan.t) : Prop := CutPlan.cuts plan = [].

(** Two plans with the same numbers. *)
Definition planEq (p q : CutPlan.t) : Prop :=
  Forall2 Qeq (CutPlan.cuts p) (CutPlan.cuts q)
  /\ CutPlan.waste p == CutPlan.waste q.

(** The quantity asked for pieces of length [len], over all the requests
    of that length. *)
Fixpoint requested (len : Q) (l : list Cut.t) : Z :=
  match l with
  | [] => 0
  | cut :: rest =>
      if Qeq_bool (Cut.length cut) len
      then Cut.quantity cut + requested len rest
      else requested len rest
  end%Z.

(** The two scenarios of the specification. *)
Definition defaultJob : Page.State :=
  Page.mkState 10 2000 [Cut.mk 1500 6] mm (32 # 10) mm.

Definition oversizedJob : Page.State :=
  Page.mkState 1 1000 [Cut.mk 1200 1] mm 0 mm.

(** *** Relating two runs

    [scaled f x y]: the length [x] is the length [y] expressed in a unit
    [f] times smaller. *)
Definition scaled (f x y : Q) : Prop := x == y * f.

Definition cutSim (f : Q) (a b : Cut.t) : Prop :=
  scaled f (Cut.length a) (Cut.length b) /\ Cut.quantity a = Cut.quantity b.

Definition planSim (f : Q) (p q : CutPlan.t) : Prop :=
  Forall2 (scaled f) (CutPlan.cuts p) (CutPlan.cuts q)
  /\ scaled f (CutPlan.waste p) (CutPlan.waste q).

(** The states of the inner loop and of the scan of one bar. *)
Definition stepSim (f : Q) (r1 r2 : Cut.t * list Q * Q) : Prop :=
  cutSim f (fst (fst r1)) (fst (fst r2))
  /\ Forall2 (scaled f) (snd (fst r1)) (snd (fst r2))
  /\ scaled f (snd r1) (snd r2).

Definition barSim (f : Q) (r1 r2 : list Cut.t * list Q * Q) : Prop :=
  Forall2 (cutSim f) (fst (fst r1)) (fst (fst r2))
  /\ Forall2 (scaled f) (snd (fst r1)) (snd (fst r2))
  /\ scaled f (snd r1) (snd r2).

(** The job of [page.tsx] as the kerf-free component sees it: the same
    numbers, no unit and no kerf. *)
Definition kerfFree (s : Page.State) : Component.State :=
  Component.mkState (Page.numExtrusions s) (Page.extrusionLength s)
    (Page.cuts s).

(** Two states that hold the same numbers, whatever the fractions that
    write them. *)
Definition stateEq (s1 s2 : Page.State) : Prop :=
  Page.numExtrusions s1 = Page.numExtrusions s2
  /\ Page.extrusionLength s1 == Page.extrusionLength s2
  /\ Forall2 (cutSim 1) (Page.cuts s1) (Page.cuts s2)
  /\ Page.unit s1 = Page.unit s2
  /\ Page.kerfWidth s1 == Page.kerfWidth s2
  /\ Page.kerfUnit s1 = Page.kerfUnit s2.

(** *** Vocabulary for the rest of the component *)

(** What the handlers of the form maintain. *)
Definition validState (s : Page.State) : Prop :=
  (1 <= Page.numExtrusions s)%Z
  /\ 1 <= Page.extrusionLength s
  /\ 0 <= Page.kerfWidth s
  /\ Page.cuts s <> []
  /\ Forall (fun cut => 1 <= Cut.length cut /\ (1 <= Cut.quantity cut)%Z)
        (Page.cuts s).

(** The states the form can be brought to. *)
Inductive reachable : Page.State -> Prop :=
| reach_initial : reachable Page.initialState
| reach_handle (s s' : Page.State) (e : Page.Event) :
    reachable s -> Page.handle s e = Some s' -> reachable s'.

(** One request of [l] seen later in the run: the same length, and no more
    pieces wanted than before. *)
Definition laterCut (cut cut' : Cut.t) : Prop :=
  Cut.length cut' = Cut.length cut
  /\ (Cut.quantity cut' <= Cut.quantity cut)%Z.

(** A number with at most two decimals. *)
Definition hundredths (x : Q) : Prop := exists n : Z, x == inject_Z n / 100.

(** The length of all the pieces cut, over a sequence of plans. *)
Definition cutLength (plans : list CutPlan.t) : Q :=
  sumQ (map (fun plan => sumQ (CutPlan.cuts plan)) plans).

(** One bar for two pieces that need a bar each, and the default job as
    the kerf-free component holds it. *)
Definition shortJob : Page.State :=
  Page.mkState 1 2000 [Cut.mk 1500 2] mm 0 mm.

Definition componentJob : Component.State :=
  Component.mkState 10 2000 [Cut.mk 1500 6].

(** A job in millimetres without kerf: three requests, two of the same
    length, four bars of which three are needed. *)
Definition zeroKerfJob : Page.State :=
  Page.mkState 4 100 [Cut.mk 30 2; Cut.mk 50 3; Cut.mk 30 1] mm 0 mm.

(** * Properties *)

(** ** Units *)

Lemma unitConversions_pos (u : Unit) : 0 < unitConversions u.
Proof. destruct u; reflexivity. Qed.

Lemma unitConversions_nonzero (u : Unit) : ~ unitConversions u == 0.
Proof. pose proof (unitConversions_pos u). lra. Qed.

Lemma inject_Z_succ (k : nat) :
  inject_Z (Z.of_nat (S k)) == inject_Z (Z.of_nat k) + 1.
Proof. rewrite Nat2Z.inj_succ. unfold Z.succ. rewrite inject_Z_plus. reflexivity. Qed.

(** ** Sorting *)

Section SortFacts.
Context {A : Type}.
Variable cmp : A -> A -> Q.

Lemma insert_perm (x : A) (l : list A) :
  Permutation (Array.insert cmp x l) (x :: l).
Proof.
  induction l as [|y l IH]; simpl.
  - apply Permutation_refl.
  - destruct (Qle_bool (cmp x y) 0).
    + apply Permutation_refl.
    + eapply Permutation_trans; [apply perm_skip, IH | apply perm_swap].
Qed.

Lemma sort_perm (l : list A) : Permutation (Array.sort cmp l) l.
Proof.
  induction l as [|x l IH]; simpl.
  - apply Permutation_refl.
  - eapply Permutation_trans; [apply insert_perm | apply perm_skip, IH].
Qed.

(** Stability: a class [p] of elements that compare equal keeps its order. *)
Lemma insert_filter (p : A -> bool) (x : A) (l : list A) :
  (forall a b, p a = true -> p b = true -> cmp a b <= 0) ->
  filter p (Array.insert cmp x l) = filter p (x :: l).
Proof.
  intros Htie. induction l as [|y l IH]; [reflexivity|].
  cbn [Array.insert]. destruct (Qle_bool (cmp x y) 0) eqn:Hle; [reflexivity|].
  cbn [filter] in *. rewrite IH.
  destruct (p x) eqn:Hx, (p y) eqn:Hy; try reflexivity.
  specialize (Htie x y Hx Hy). apply Qle_bool_iff in Htie. congruence.
Qed.

Lemma sort_filter (p : A -> bool) (l : list A) :
  (forall a b, p a = true -> p b = true -> cmp a b <= 0) ->
  filter p (Array.sort cmp l) = filter p l.
Proof.
  intros Htie. induction l as [|x l IH]; [reflexivity|].
  cbn [Array.sort fold_right]. fold (Array.sort cmp l).
  rewrite insert_filter by exact Htie. cbn [filter]. rewrite IH. reflexivity.
Qed.
End SortFacts.

Lemma byLengthDesc_le (a b : Cut.t) :
  Qle_bool (byLengthDesc a b) 0 = true <-> Cut.length b <= Cut.length a.
Proof. rewrite Qle_bool_iff. unfold byLengthDesc. split; intros; lra. Qed.

Lemma insert_descSorted (x : Cut.t) (l : list Cut.t) :
  descSorted l -> descSorted (Array.insert byLengthDesc x l).
Proof.
  unfold descSorted. induction l as [|y l IH]; intros Hs; cbn [Array.insert].
  - repeat constructor.
  - apply StronglySorted_inv in Hs as Hinv. destruct Hinv as [Hl Hall].
    destruct (Qle_bool (byLengthDesc x y) 0) eqn:Hle.
    + apply byLengthDesc_le in Hle. constructor; [exact Hs|].
      constructor; [exact Hle|].
      eapply Forall_impl; [|exact Hall]. cbn. intros b Hb. lra.
    + assert (Hlt : Cut.length x <= Cut.length y).
      { destruct (Qlt_le_dec (Cut.length x) (Cut.length y)) as [H|H];
          [lra|]. apply byLengthDesc_le in H. congruence. }
      constructor; [apply IH; exact Hl|].
      apply Forall_forall. intros b Hb.
      apply (Permutation_in _ (insert_perm byLengthDesc x l)) in Hb.
      destruct Hb as [<- | Hb]; [exact Hlt|].
      rewrite Forall_forall in Hall. apply Hall; exact Hb.
Qed.

Lemma sort_descSorted (l : list Cut.t) :
  descSorted (Array.sort byLengthDesc l).
Proof.
  induction l as [|x l IH]; [constructor|].
  apply insert_descSorted; exact IH.
Qed.

Lemma sort_ofLength (len : Q) (l : list Cut.t) :
  ofLength len (Array.sort byLengthDesc l) = ofLength len l.
Proof.
  apply sort_filter. intros a b Ha Hb.
  apply Qeq_bool_iff in Ha, Hb. unfold byLengthDesc. lra.
Qed.

Lemma sort_stableDescSort (l : list Cut.t) :
  stableDescSort l (Array.sort byLengthDesc l).
Proof. split; [apply sort_descSorted | intros len; apply sort_ofLength]. Qed.

(** A stable descending rearrangement is unique: the two promises of
    [stableDescSort] leave no freedom to the sorting algorithm. *)
Lemma stable_sort_unique (l1 l2 : list Cut.t) :
  descSorted l1 -> descSorted l2 ->
  (forall len, ofLength len l1 = ofLength len l2) ->
  l1 = l2.
Proof.
  unfold descSorted, ofLength. revert l2.
  induction l1 as [|a l1 IH]; intros l2 Hs1 Hs2 Hcls.
  - destruct l2 as [|b l2]; [reflexivity|].
    specialize (Hcls (Cut.length b)). cbn [filter] in Hcls.
    rewrite (proj2 (Qeq_bool_iff _ _) (Qeq_refl _)) in Hcls. discriminate.
  - destruct l2 as [|b l2].
    + specialize (Hcls (Cut.length a)). cbn [filter] in Hcls.
      rewrite (proj2 (Qeq_bool_iff _ _) (Qeq_refl _)) in Hcls. discriminate.
    + apply StronglySorted_inv in Hs1. destruct Hs1 as [Hs1 Hall1].
      apply StronglySorted_inv in Hs2. destruct Hs2 as [Hs2 Hall2].
      rewrite Forall_forall in Hall1, Hall2.
      assert (Hin : forall (x : Cut.t) (l l' : list Cut.t),
                 filter (fun cut => Qeq_bool (Cut.length cut) (Cut.length x))
                        (x :: l)
                 = filter (fun cut => Qeq_bool (Cut.length cut) (Cut.length x))
                          l' ->
                 In x l').
      { intros x l l' Heq. cbn [filter] in Heq.
        rewrite (proj2 (Qeq_bool_iff _ _) (Qeq_refl _)) in Heq.
        assert (Hx : In x (filter (fun cut => Qeq_bool (Cut.length cut)
                                                 (Cut.length x)) l')).
        { rewrite <- Heq. left; reflexivity. }
        apply filter_In in Hx. apply Hx. }
      assert (Hab : Cut.length a == Cut.length b).
      { pose proof (Hin a l1 (b :: l2) (Hcls (Cut.length a))) as Ha.
        pose proof (Hin b l2 (a :: l1) (eq_sym (Hcls (Cut.length b)))) as Hb.
        destruct Ha as [Ha | Ha]; [rewrite Ha; reflexivity|].
        destruct Hb as [Hb | Hb]; [rewrite Hb; reflexivity|].
        specialize (Hall1 b Hb). specialize (Hall2 a Ha). lra. }
      assert (Heq : a = b).
      { specialize (Hcls (Cut.length a)). cbn [filter] in Hcls.
        rewrite (proj2 (Qeq_bool_iff _ _) (Qeq_refl _)) in Hcls.
        rewrite (proj2 (Qeq_bool_iff _ _) (Qeq_sym _ _ Hab)) in Hcls.
        congruence. }
      subst b. f_equal. apply IH; [exact Hs1 | exact Hs2 |].
      intros len. specialize (Hcls len). cbn [filter] in Hcls.
      destruct (Qeq_bool (Cut.length a) len); congruence.
Qed.

(** ** The inner loops *)

Section AllocationFacts.
Variable stockLength : Q.
Variable numExtrusions : Z.
Variable pushed : Q -> Q.

Lemma placeCut_eq (cut : Cut.t) (cc : list Q) (rl : Q) :
  placeCut pushed cut cc rl
  = placeWhile pushed (Z.to_nat (Cut.quantity cut)) cut cc rl.
Proof. reflexivity. Qed.

Lemma cutBar_eq (rc : list Cut.t) :
  cutBar stockLength pushed rc
  = (fst (fst (forEachCut pushed rc [] stockLength)),
     CutPlan.mk (snd (fst (forEachCut pushed rc [] stockLength)))
                (snd (forEachCut pushed rc [] stockLength))).
Proof.
  unfold cutBar. destruct (forEachCut pushed rc [] stockLength) as [[? ?] ?].
  reflexivity.
Qed.

Lemma allocate_eq (sorted : list Cut.t) :
  allocate stockLength numExtrusions pushed sorted
  = snd (padWhile stockLength numExtrusions
           (barsLeft numExtrusions
              (fst (fst (fillWhile stockLength numExtrusions pushed
                           (barsLeft numExtrusions 0) 0%Z sorted []))))
           (fst (fst (fillWhile stockLength numExtrusions pushed
                        (barsLeft numExtrusions 0) 0%Z sorted [])))
           (snd (fillWhile stockLength numExtrusions pushed
                   (barsLeft numExtrusions 0) 0%Z sorted []))).
Proof.
  unfold allocate.
  destruct (fillWhile stockLength numExtrusions pushed
              (barsLeft numExtrusions 0) 0%Z sorted []) as [[? ?] ?].
  reflexivity.
Qed.

Local Abbreviation placeWhile := (placeWhile pushed).
Local Abbreviation placeCut := (placeCut pushed).
Local Abbreviation forEachCut := (forEachCut pushed).
Local Abbreviation cutBar := (cutBar stockLength pushed).
Local Abbreviation fillWhile := (fillWhile stockLength numExtrusions pushed).
Local Abbreviation padWhile := (padWhile stockLength numExtrusions).
Local Abbreviation allocate := (allocate stockLength numExtrusions pushed).

Lemma fits_true (cut : Cut.t) (rl : Q) :
  fits cut rl = true <-> (0 < Cut.quantity cut)%Z /\ Cut.length cut <= rl.
Proof.
  unfold fits. rewrite andb_true_iff, Z.ltb_lt, Qle_bool_iff. tauto.
Qed.

Lemma fits_no_quantity (cut : Cut.t) (rl : Q) :
  (Cut.quantity cut <= 0)%Z -> fits cut rl = false.
Proof.
  intros Hq. unfold fits.
  replace (0 <? Cut.quantity cut)%Z with false; [reflexivity|].
  symmetry; apply Z.ltb_ge; exact Hq.
Qed.

(** What the inner [while] does with one request: it places some number
    [k] of copies and leaves [rl'] of the bar. *)
Record placement (cut : Cut.t) (rl : Q) (k : nat) (rl' : Q) : Prop := {
  placed_sum : rl' + inject_Z (Z.of_nat k) * Cut.length cut == rl;
  placed_quantity : (Z.of_nat k <= Z.max 0 (Cut.quantity cut))%Z;
  placed_none : k = 0%nat -> rl' = rl;
  placed_some : k <> 0%nat -> Cut.length cut <= rl /\ 0 <= rl'
}.

Definition afterPlacing (cut : Cut.t) (k : nat) : Cut.t :=
  Cut.mk (Cut.length cut) (Cut.quantity cut - Z.of_nat k).

Lemma afterPlacing_0 (cut : Cut.t) : afterPlacing cut 0 = cut.
Proof. destruct cut as [len q]. unfold afterPlacing. simpl. f_equal. lia. Qed.

(** The loop with any amount of fuel; with [cut.quantity] units or more it
    stops because its guard is false, not because the fuel ran out. *)
Lemma placeWhile_spec (fuel : nat) :
  forall (cut : Cut.t) (cc : list Q) (rl : Q),
  exists (k : nat) (rl' : Q),
    placeWhile fuel cut cc rl
    = (afterPlacing cut k, cc ++ repeat (pushed (Cut.length cut)) k, rl')
    /\ placement cut rl k rl'
    /\ (k <= fuel)%nat
    /\ ((Z.to_nat (Cut.quantity cut) <= fuel)%nat ->
        fits (afterPlacing cut k) rl' = false).
Proof.
  assert (Hstop : forall cut cc rl fuel',
             placeWhile fuel' cut cc rl = (cut, cc, rl) ->
             (fuel' = 0%nat \/ fits cut rl = false) ->
             placeWhile fuel' cut cc rl
             = (afterPlacing cut 0,
                cc ++ repeat (pushed (Cut.length cut)) 0, rl)
             /\ placement cut rl 0 rl
             /\ (0 <= fuel')%nat
             /\ ((Z.to_nat (Cut.quantity cut) <= fuel')%nat ->
                 fits (afterPlacing cut 0) rl = false)).
  { intros cut cc rl fuel' Heq Hwhy. rewrite afterPlacing_0.
    split; [|split; [|split]].
    - rewrite Heq. simpl. rewrite app_nil_r. reflexivity.
    - constructor.
      + change (inject_Z (Z.of_nat 0)) with 0. lra.
      + lia.
      + reflexivity.
      + congruence.
    - lia.
    - intros Hq. destruct Hwhy as [-> | Hfit]; [|exact Hfit].
      apply fits_no_quantity. lia. }
  induction fuel as [|fuel IH]; intros cut cc rl.
  - exists 0%nat, rl. apply Hstop; [reflexivity | left; reflexivity].
  - destruct (fits cut rl) eqn:Hfit.
    + pose proof Hfit as Hfit'.
      apply fits_true in Hfit'. destruct Hfit' as [Hq Hlen].
      destruct (IH (Cut.mk (Cut.length cut) (Cut.quantity cut - 1))
                   (cc ++ [pushed (Cut.length cut)]) (rl - Cut.length cut))
        as (k & rl' & Heq & [Hsum Hkq Hk0 Hkpos] & Hk & Hexit).
      cbn [Cut.length Cut.quantity] in *. exists (S k), rl'.
      assert (Hafter : afterPlacing cut (S k)
                       = afterPlacing
                           (Cut.mk (Cut.length cut) (Cut.quantity cut - 1)) k).
      { unfold afterPlacing. cbn [Cut.length Cut.quantity]. f_equal. lia. }
      rewrite Hafter.
      split; [|split; [|split]].
      * simpl. rewrite Hfit. simpl in Heq. rewrite Heq, <- app_assoc.
        reflexivity.
      * constructor.
        -- rewrite inject_Z_succ. lra.
        -- lia.
        -- discriminate.
        -- intros _. split; [exact Hlen|].
           destruct k as [|k]; [rewrite Hk0 by reflexivity; lra|].
           apply Hkpos; discriminate.
      * lia.
      * intros Hfuel. apply Hexit. lia.
    + exists 0%nat, rl. apply Hstop; [|right; exact Hfit].
      simpl. rewrite Hfit. reflexivity.
Qed.

Lemma placeCut_spec (cut : Cut.t) (cc : list Q) (rl : Q) :
  exists (k : nat) (rl' : Q),
    placeCut cut cc rl
    = (afterPlacing cut k, cc ++ repeat (pushed (Cut.length cut)) k, rl')
    /\ placement cut rl k rl'
    /\ fits (afterPlacing cut k) rl' = false.
Proof.
  rewrite !placeCut_eq.
  destruct (placeWhile_spec (Z.to_nat (Cut.quantity cut)) cut cc rl)
    as (k & rl' & Heq & Hp & _ & Hexit).
  exists k, rl'. split; [exact Heq|]. split; [exact Hp|].
  apply Hexit. lia.
Qed.

(** More fuel than [cut.quantity] changes nothing. *)
Lemma placeCut_fuel (fuel : nat) (cut : Cut.t) (cc : list Q) (rl : Q) :
  (Z.to_nat (Cut.quantity cut) <= fuel)%nat ->
  placeWhile fuel cut cc rl = placeCut cut cc rl.
Proof.
  revert cut cc rl. induction fuel as [|fuel IH]; intros cut cc rl Hfuel.
  - rewrite !placeCut_eq.
    replace (Z.to_nat (Cut.quantity cut)) with 0%nat by lia. reflexivity.
  - rewrite !placeCut_eq.
    destruct (Z.to_nat (Cut.quantity cut)) as [|n] eqn:Hn.
    + simpl. rewrite fits_no_quantity by lia. reflexivity.
    + simpl. destruct (fits cut rl); [|reflexivity].
      rewrite IH by (cbn; lia).
      rewrite !placeCut_eq. cbn [Cut.quantity].
      replace (Z.to_nat (Cut.quantity cut - 1)) with n by lia. reflexivity.
Qed.

(** *** One bar, as a relation

    [bar_run l rl l' new rl']: scanning the requests [l] with [rl] left on
    the bar places the cuts [new], in this order, and leaves the requests
    [l'] and the length [rl']. *)
Inductive bar_run : list Cut.t -> Q -> list Cut.t -> list Q -> Q -> Prop :=
| bar_done (rl : Q) : bar_run [] rl [] [] rl
| bar_next (cut : Cut.t) (rest : list Cut.t) (rl : Q) (k : nat) (rl1 : Q)
    (rest' : list Cut.t) (new : list Q) (rl' : Q) :
    placement cut rl k rl1 ->
    fits (afterPlacing cut k) rl1 = false ->
    bar_run rest rl1 rest' new rl' ->
    bar_run (cut :: rest) rl (afterPlacing cut k :: rest')
      (repeat (pushed (Cut.length cut)) k ++ new) rl'.

Lemma forEachCut_run (l : list Cut.t) :
  forall (cc : list Q) (rl : Q),
  exists (l' : list Cut.t) (new : list Q) (rl' : Q),
    forEachCut l cc rl = (l', cc ++ new, rl') /\ bar_run l rl l' new rl'.
Proof.
  induction l as [|cut rest IH]; intros cc rl.
  - exists [], [], rl. simpl. rewrite app_nil_r. split; constructor.
  - destruct (placeCut_spec cut cc rl) as (k & rl1 & Heq & Hp & Hexit).
    destruct (IH (cc ++ repeat (pushed (Cut.length cut)) k) rl1)
      as (rest' & new & rl' & Heq' & Hrun).
    exists (afterPlacing cut k :: rest'),
           (repeat (pushed (Cut.length cut)) k ++ new), rl'.
    split.
    + simpl. rewrite Heq, Heq', app_assoc. reflexivity.
    + apply bar_next with (rl1 := rl1); assumption.
Qed.

Lemma cutBar_run (rc : list Cut.t) :
  exists (rc' : list Cut.t) (new : list Q) (rl' : Q),
    cutBar rc = (rc', CutPlan.mk new rl') /\ bar_run rc stockLength rc' new rl'.
Proof.
  destruct (forEachCut_run rc [] stockLength) as (rc' & new & rl' & Heq & Hrun).
  exists rc', new, rl'. split; [|exact Hrun].
  rewrite cutBar_eq, Heq. reflexivity.
Qed.

(** *** What one bar preserves *)

Lemma bar_run_lengths (l l' : list Cut.t) (rl rl' : Q) (new : list Q) :
  bar_run l rl l' new rl' -> map Cut.length l' = map Cut.length l.
Proof.
  induction 1 as [rl | cut rest rl k rl1 rest' new rl' Hp Hexit Hrun IH].
  - reflexivity.
  - simpl. rewrite IH. reflexivity.
Qed.

Lemma descSorted_lengths (l l' : list Cut.t) :
  map Cut.length l' = map Cut.length l -> descSorted l -> descSorted l'.
Proof.
  unfold descSorted. revert l'.
  induction l as [|a l IH]; intros [|a' l'] Hmap Hs; try discriminate.
  - constructor.
  - simpl in Hmap. injection Hmap as Ha Hl.
    apply StronglySorted_inv in Hs. destruct Hs as [Hs Hall].
    constructor; [apply IH; assumption|].
    rewrite Ha. clear - Hl Hall. revert l' Hl.
    induction Hall as [|b l Hb Hall IH]; intros [|b' l'] Hl; try discriminate.
    + constructor.
    + simpl in Hl. injection Hl as Hb' Hl. constructor.
      * rewrite Hb'. exact Hb.
      * apply IH; exact Hl.
Qed.

(** Nothing placed: the requests are untouched. *)
Lemma bar_run_nothing (l l' : list Cut.t) (rl rl' : Q) (new : list Q) :
  bar_run l rl l' new rl' -> new = [] -> l' = l /\ rl' = rl.
Proof.
  induction 1 as [rl | cut rest rl k rl1 rest' new rl' Hp Hexit Hrun IH];
    intros Hnil.
  - split; reflexivity.
  - apply app_eq_nil in Hnil. destruct Hnil as [Hk Hnew].
    destruct k as [|k]; [|discriminate].
    destruct (IH Hnew) as [-> ->].
    rewrite afterPlacing_0, (placed_none _ _ _ _ Hp) by reflexivity.
    split; reflexivity.
Qed.

(** The bar never goes below zero. *)
Lemma bar_run_nonneg (l l' : list Cut.t) (rl rl' : Q) (new : list Q) :
  bar_run l rl l' new rl' -> 0 <= rl -> 0 <= rl'.
Proof.
  induction 1 as [rl | cut rest rl k rl1 rest' new rl' Hp Hexit Hrun IH];
    intros Hrl.
  - exact Hrl.
  - apply IH. destruct k as [|k].
    + rewrite (placed_none _ _ _ _ Hp) by reflexivity. exact Hrl.
    + apply (placed_some _ _ _ _ Hp). discriminate.
Qed.

(** Conservation on one bar, for any [cost] that gives back the length a
    pushed number stands for. *)
Lemma bar_run_balance (cost : Q -> Q) :
  (forall len, cost (pushed len) == len) ->
  forall (l l' : list Cut.t) (rl rl' : Q) (new : list Q),
  bar_run l rl l' new rl' -> sumQ (map cost new) + rl' == rl.
Proof.
  intros Hcost l l' rl rl' new.
  induction 1 as [rl | cut rest rl k rl1 rest' new rl' Hp Hexit Hrun IH].
  - simpl. lra.
  - pose proof (placed_sum _ _ _ _ Hp) as Hsum.
    rewrite <- Hsum, <- IH. clear - Hcost.
    induction k as [|k IHk].
    + cbn [repeat app]. change (inject_Z (Z.of_nat 0)) with 0. lra.
    + rewrite inject_Z_succ. cbn [repeat app map sumQ fold_right].
      fold (sumQ (map cost (repeat (pushed (Cut.length cut)) k ++ new))).
      rewrite Hcost. lra.
Qed.

(** Accounting on one bar: every placed piece is taken off the demand of
    its length class. *)
Lemma countIf_app (p : Q -> bool) (l1 l2 : list Q) :
  countIf p (l1 ++ l2) = (countIf p l1 + countIf p l2)%Z.
Proof. unfold countIf. rewrite filter_app, length_app. lia. Qed.

Lemma countIf_repeat (p : Q -> bool) (x : Q) (k : nat) :
  countIf p (repeat x k) = if p x then Z.of_nat k else 0%Z.
Proof.
  unfold countIf. induction k as [|k IH]; [destruct (p x); reflexivity|].
  cbn [repeat filter]. destruct (p x) eqn:Hp; [|exact IH].
  cbn [List.length]. lia.
Qed.

Lemma bar_run_demand (sel selp : Q -> bool) :
  (forall len, selp (pushed len) = sel len) ->
  forall (l l' : list Cut.t) (rl rl' : Q) (new : list Q),
  bar_run l rl l' new rl' ->
  demand sel l = (demand sel l' + countIf selp new)%Z.
Proof.
  intros Hsel l l' rl rl' new.
  induction 1 as [rl | cut rest rl k rl1 rest' new rl' Hp Hexit Hrun IH].
  - reflexivity.
  - pose proof (placed_quantity _ _ _ _ Hp) as Hk.
    rewrite countIf_app, countIf_repeat, Hsel. cbn [demand afterPlacing
      Cut.length Cut.quantity].
    destruct (sel (Cut.length cut)); lia.
Qed.

(** Every placed piece is the pushed form of a request of the list. *)
Lemma bar_run_from (l l' : list Cut.t) (rl rl' : Q) (new : list Q) :
  bar_run l rl l' new rl' ->
  Forall (fun x => exists cut, In cut l /\ x = pushed (Cut.length cut)) new.
Proof.
  induction 1 as [rl | cut rest rl k rl1 rest' new rl' Hp Hexit Hrun IH].
  - constructor.
  - apply Forall_app. split.
    + apply Forall_forall. intros x Hx. apply repeat_spec in Hx.
      exists cut. split; [left; reflexivity | exact Hx].
    + eapply Forall_impl; [|exact IH].
      intros x (c & Hc & Hx). exists c. split; [right; exact Hc | exact Hx].
Qed.

(** On a list in descending order, a bar that starts with at most [bound]
    left places only pieces of length at most [bound]: the first piece
    placed fits, and the later ones are no longer than it. *)
Lemma bar_run_bound (bound : Q) (l l' : list Cut.t) (rl rl' : Q)
    (new : list Q) :
  bar_run l rl l' new rl' -> descSorted l -> rl <= bound ->
  Forall (fun x => exists len, x = pushed len /\ len <= bound) new.
Proof.
  induction 1 as [rl | cut rest rl k rl1 rest' new rl' Hp Hexit Hrun IH];
    intros Hs Hrl.
  - constructor.
  - apply StronglySorted_inv in Hs. destruct Hs as [Hs Hall].
    destruct k as [|k].
    + simpl. apply IH; [exact Hs|].
      rewrite (placed_none _ _ _ _ Hp) by reflexivity. exact Hrl.
    + destruct (placed_some _ _ _ _ Hp) as [Hlen _]; [discriminate|].
      assert (Hcut : Cut.length cut <= bound) by lra.
      apply Forall_app. split.
      * apply Forall_forall. intros x Hx. apply repeat_spec in Hx.
        exists (Cut.length cut). split; assumption.
      * apply bar_run_from in Hrun. eapply Forall_impl; [|exact Hrun].
        intros x (c & Hc & Hx). exists (Cut.length c). split; [exact Hx|].
        rewrite Forall_forall in Hall. specialize (Hall c Hc). lra.
Qed.

(** *** The two outer loops

    [fill_run idx rc new idx' rc']: entered with index [idx] and requests
    [rc], the first loop pushes the plans [new] and stops, its guard false,
    with index [idx'] and requests [rc']. *)
Inductive fill_run :
  Z -> list Cut.t -> list CutPlan.t -> Z -> list Cut.t -> Prop :=
| fill_stop (idx : Z) (rc : list Cut.t) :
    (idx <? numExtrusions)%Z && demandLeft rc = false ->
    fill_run idx rc [] idx rc
| fill_bar (idx : Z) (rc rc1 : list Cut.t) (plan : CutPlan.t)
    (plans : list CutPlan.t) (idx' : Z) (rc' : list Cut.t) :
    (idx <? numExtrusions)%Z && demandLeft rc = true ->
    cutBar rc = (rc1, plan) ->
    fill_run (idx + 1) rc1 plans idx' rc' ->
    fill_run idx rc (plan :: plans) idx' rc'.

Lemma cutBar_bar_run (rc rc' : list Cut.t) (plan : CutPlan.t) :
  cutBar rc = (rc', plan) ->
  bar_run rc stockLength rc' (CutPlan.cuts plan) (CutPlan.waste plan).
Proof.
  intros Heq. destruct (cutBar_run rc) as (rc1 & new & rl & Hbar & Hrun).
  rewrite Heq in Hbar. injection Hbar as -> ->. exact Hrun.
Qed.

Lemma fillWhile_run (fuel : nat) :
  forall (idx : Z) (rc : list Cut.t) (plans : list CutPlan.t),
  (barsLeft numExtrusions idx <= fuel)%nat ->
  exists (new : list CutPlan.t) (idx' : Z) (rc' : list Cut.t),
    fillWhile fuel idx rc plans = (idx', rc', plans ++ new)
    /\ fill_run idx rc new idx' rc'.
Proof.
  unfold barsLeft.
  induction fuel as [|fuel IH]; intros idx rc plans Hfuel.
  - exists [], idx, rc. simpl. rewrite app_nil_r. split; [reflexivity|].
    apply fill_stop. replace (idx <? numExtrusions)%Z with false; [reflexivity|].
    symmetry; apply Z.ltb_ge. lia.
  - simpl. destruct ((idx <? numExtrusions)%Z && demandLeft rc) eqn:Hguard.
    + destruct (cutBar rc) as [rc1 plan] eqn:Hbar.
      apply andb_true_iff in Hguard as Hlt. destruct Hlt as [Hlt _].
      apply Z.ltb_lt in Hlt.
      destruct (IH (idx + 1)%Z rc1 (plans ++ [plan]))
        as (news & idx' & rc' & Heq & Hfill); [lia|].
      exists (plan :: news), idx', rc'.
      rewrite Heq, <- app_assoc. split; [reflexivity|].
      apply fill_bar with (rc1 := rc1); assumption.
    + exists [], idx, rc. rewrite app_nil_r. split; [reflexivity|].
      apply fill_stop; exact Hguard.
Qed.

Lemma fill_run_index (idx idx' : Z) (rc rc' : list Cut.t)
    (new : list CutPlan.t) :
  fill_run idx rc new idx' rc' ->
  idx' = (idx + Z.of_nat (List.length new))%Z
  /\ (new <> [] -> (idx' <= numExtrusions)%Z).
Proof.
  induction 1 as [idx rc Hguard
    | idx rc rc1 plan plans idx' rc' Hguard Hbar Hfill [IH1 IH2]].
  - simpl. split; [lia | congruence].
  - apply andb_true_iff in Hguard. destruct Hguard as [Hlt _].
    apply Z.ltb_lt in Hlt. cbn [List.length]. split; [lia|].
    intros _. destruct plans as [|p plans]; [simpl in IH1; lia|].
    apply IH2; discriminate.
Qed.

Lemma padWhile_spec (fuel : nat) :
  forall (idx : Z) (plans : list CutPlan.t),
  (barsLeft numExtrusions idx <= fuel)%nat ->
  padWhile fuel idx plans
  = ((idx + Z.of_nat (barsLeft numExtrusions idx))%Z,
     plans ++ repeat (CutPlan.mk [] stockLength) (barsLeft numExtrusions idx)).
Proof.
  unfold barsLeft.
  induction fuel as [|fuel IH]; intros idx plans Hfuel.
  - replace (Z.to_nat (numExtrusions - idx)) with 0%nat by lia.
    simpl. rewrite app_nil_r, Z.add_0_r. reflexivity.
  - simpl. destruct (idx <? numExtrusions)%Z eqn:Hlt.
    + apply Z.ltb_lt in Hlt. rewrite IH by lia. rewrite <- app_assoc.
      replace (Z.to_nat (numExtrusions - idx))
        with (S (Z.to_nat (numExtrusions - (idx + 1)))) by lia.
      f_equal. lia.
    + apply Z.ltb_ge in Hlt.
      replace (Z.to_nat (numExtrusions - idx)) with 0%nat by lia.
      simpl. rewrite app_nil_r, Z.add_0_r. reflexivity.
Qed.

(** The first loop is a function of its entry state, and neither outer
    loop is cut short by its fuel. *)
Lemma fill_run_functional (idx idx1 idx2 : Z) (rc rc1 rc2 : list Cut.t)
    (new1 new2 : list CutPlan.t) :
  fill_run idx rc new1 idx1 rc1 -> fill_run idx rc new2 idx2 rc2 ->
  new1 = new2 /\ idx1 = idx2 /\ rc1 = rc2.
Proof.
  intros H1. revert new2 idx2 rc2.
  induction H1 as [idx rc Hguard
    | idx rc rc' plan plans idx1 rc1 Hguard Heq Hfill IH];
    intros new2 idx2 rc2 H2; inversion H2; subst; try congruence.
  - repeat split.
  - match goal with
    | Hbar : cutBar rc = _ |- _ => rewrite Heq in Hbar; injection Hbar as <- <-
    end.
    match goal with
    | Hrun : fill_run _ _ _ idx2 rc2 |- _ =>
        destruct (IH _ _ _ Hrun) as (-> & -> & ->)
    end.
    repeat split.
Qed.

Lemma fillWhile_fuel (fuel : nat) (idx : Z) (rc : list Cut.t)
    (plans : list CutPlan.t) :
  (barsLeft numExtrusions idx <= fuel)%nat ->
  fillWhile fuel idx rc plans
  = fillWhile (barsLeft numExtrusions idx) idx rc plans.
Proof.
  intros Hfuel.
  destruct (fillWhile_run fuel idx rc plans Hfuel)
    as (new1 & idx1 & rc1 & -> & H1).
  destruct (fillWhile_run (barsLeft numExtrusions idx) idx rc plans
              (Nat.le_refl _))
    as (new2 & idx2 & rc2 & -> & H2).
  destruct (fill_run_functional _ _ _ _ _ _ _ _ H1 H2) as (-> & -> & ->).
  reflexivity.
Qed.

Lemma padWhile_fuel (fuel : nat) (idx : Z) (plans : list CutPlan.t) :
  (barsLeft numExtrusions idx <= fuel)%nat ->
  padWhile fuel idx plans
  = padWhile (barsLeft numExtrusions idx) idx plans.
Proof.
  intros Hfuel. rewrite !padWhile_spec by (exact Hfuel || apply Nat.le_refl).
  reflexivity.
Qed.

(** The whole allocation: the bars of the first loop, then empty bars up
    to [numExtrusions]. *)
Lemma allocate_run (sorted : list Cut.t) :
  exists (new : list CutPlan.t) (idx' : Z) (rc' : list Cut.t),
    fill_run 0 sorted new idx' rc'
    /\ allocate sorted
       = new ++ repeat (CutPlan.mk [] stockLength)
                  (barsLeft numExtrusions idx').
Proof.
  destruct (fillWhile_run (barsLeft numExtrusions 0) 0 sorted [])
    as (new & idx' & rc' & Heq & Hfill); [lia|].
  exists new, idx', rc'. split; [exact Hfill|].
  rewrite allocate_eq, Heq. cbn [fst snd].
  rewrite padWhile_spec by lia. reflexivity.
Qed.

Lemma allocate_length (sorted : list Cut.t) :
  List.length (allocate sorted) = Z.to_nat numExtrusions.
Proof.
  destruct (allocate_run sorted) as (new & idx' & rc' & Hfill & ->).
  apply fill_run_index in Hfill. destruct Hfill as [-> Hle].
  rewrite length_app, repeat_length. unfold barsLeft.
  destruct new as [|p new]; [simpl; f_equal; lia|].
  specialize (Hle ltac:(discriminate)). lia.
Qed.

(** *** Lifting a property of one bar to every plan *)

Lemma fill_run_Forall (I : list Cut.t -> Prop) (P : CutPlan.t -> Prop) :
  (forall rc rc' new rl,
     I rc -> bar_run rc stockLength rc' new rl ->
     I rc' /\ P (CutPlan.mk new rl)) ->
  forall (idx idx' : Z) (rc rc' : list Cut.t) (new : list CutPlan.t),
  fill_run idx rc new idx' rc' -> I rc -> Forall P new.
Proof.
  intros Hbar idx idx' rc rc' new.
  induction 1 as [idx rc Hguard
    | idx rc rc1 plan plans idx' rc' Hguard Heq Hfill IH]; intros HI.
  - constructor.
  - apply cutBar_bar_run in Heq. destruct plan as [new rl].
    destruct (Hbar _ _ _ _ HI Heq) as [HI1 HP].
    constructor; [exact HP | apply IH; exact HI1].
Qed.

Lemma allocate_Forall (I : list Cut.t -> Prop) (P : CutPlan.t -> Prop) :
  (forall rc rc' new rl,
     I rc -> bar_run rc stockLength rc' new rl ->
     I rc' /\ P (CutPlan.mk new rl)) ->
  P (CutPlan.mk [] stockLength) ->
  forall sorted : list Cut.t, I sorted -> Forall P (allocate sorted).
Proof.
  intros Hbar Hempty sorted HI.
  destruct (allocate_run sorted) as (new & idx' & rc' & Hfill & ->).
  apply Forall_app. split.
  - eapply fill_run_Forall; eassumption.
  - apply Forall_forall. intros p Hp. apply repeat_spec in Hp.
    rewrite Hp. exact Hempty.
Qed.

(** *** Accounting over the whole allocation *)

Lemma demand_nonneg (sel : Q -> bool) (l : list Cut.t) :
  (0 <= demand sel l)%Z.
Proof.
  induction l as [|cut l IH]; simpl; [lia|].
  destruct (sel (Cut.length cut)); lia.
Qed.

Lemma demandLeft_demand (rc : list Cut.t) :
  demandLeft rc = true -> (0 < demand anyLength rc)%Z.
Proof.
  unfold demandLeft, Array.some. intros H. apply existsb_exists in H.
  destruct H as (cut & Hin & Hq). apply Z.ltb_lt in Hq.
  induction rc as [|c rc IH]; [contradiction|].
  cbn [demand anyLength]. pose proof (demand_nonneg anyLength rc).
  destruct Hin as [-> | Hin]; [lia|]. specialize (IH Hin). lia.
Qed.

Lemma placedCount_app (p : Q -> bool) (l1 l2 : list CutPlan.t) :
  placedCount p (l1 ++ l2) = (placedCount p l1 + placedCount p l2)%Z.
Proof. induction l1 as [|a l1 IH]; simpl; [reflexivity | lia]. Qed.

Lemma placedCount_empty (p : Q -> bool) (k : nat) :
  placedCount p (repeat (CutPlan.mk [] stockLength) k) = 0%Z.
Proof. induction k as [|k IH]; simpl; [reflexivity | exact IH]. Qed.

Lemma fill_run_demand (sel selp : Q -> bool) :
  (forall len, selp (pushed len) = sel len) ->
  forall (idx idx' : Z) (rc rc' : list Cut.t) (new : list CutPlan.t),
  fill_run idx rc new idx' rc' ->
  demand sel rc = (demand sel rc' + placedCount selp new)%Z.
Proof.
  intros Hsel idx idx' rc rc' new.
  induction 1 as [idx rc Hguard
    | idx rc rc1 plan plans idx' rc' Hguard Heq Hfill IH].
  - simpl. lia.
  - apply cutBar_bar_run in Heq.
    apply (bar_run_demand sel selp Hsel) in Heq.
    cbn [placedCount]. lia.
Qed.

(** The placed pieces of a length class never exceed its demand. *)
Lemma allocate_demand (sel selp : Q -> bool) (sorted : list Cut.t) :
  (forall len, selp (pushed len) = sel len) ->
  (placedCount selp (allocate sorted) <= demand sel sorted)%Z.
Proof.
  intros Hsel.
  destruct (allocate_run sorted) as (new & idx' & rc' & Hfill & ->).
  apply (fill_run_demand sel selp Hsel) in Hfill.
  rewrite placedCount_app, placedCount_empty.
  pose proof (demand_nonneg sel rc'). lia.
Qed.

(** A slot reached when the whole demand has been placed is an empty bar. *)
Lemma fill_run_idle (idx idx' : Z) (rc rc' : list Cut.t)
    (new : list CutPlan.t) :
  fill_run idx rc new idx' rc' ->
  forall (k i : nat) (p : CutPlan.t),
  nth_error (new ++ repeat (CutPlan.mk [] stockLength) k) i = Some p ->
  placedCount anyLength
    (firstn i (new ++ repeat (CutPlan.mk [] stockLength) k))
  = demand anyLength rc ->
  p = CutPlan.mk [] stockLength.
Proof.
  induction 1 as [idx rc Hguard
    | idx rc rc1 plan plans idx' rc' Hguard Heq Hfill IH];
    intros k i p Hnth Hcount.
  - apply nth_error_In in Hnth. apply repeat_spec in Hnth. exact Hnth.
  - apply andb_true_iff in Hguard. destruct Hguard as [_ Hleft].
    apply demandLeft_demand in Hleft.
    destruct i as [|i]; [simpl in Hcount; lia|].
    apply cutBar_bar_run in Heq.
    apply (bar_run_demand anyLength anyLength (fun _ => eq_refl)) in Heq.
    cbn [app firstn placedCount nth_error] in *.
    apply (IH k i p Hnth). lia.
Qed.

Lemma allocate_idle (sorted : list Cut.t) (i : nat) (p : CutPlan.t) :
  nth_error (allocate sorted) i = Some p ->
  placedCount anyLength (firstn i (allocate sorted))
  = demand anyLength sorted ->
  p = CutPlan.mk [] stockLength.
Proof.
  destruct (allocate_run sorted) as (new & idx' & rc' & Hfill & ->).
  apply (fill_run_idle _ _ _ _ _ Hfill).
Qed.

(** *** Empty bars come last *)

Lemma fill_run_stuck (idx idx' : Z) (rc rc' : list Cut.t)
    (new : list CutPlan.t) (plan : CutPlan.t) :
  fill_run idx rc new idx' rc' ->
  cutBar rc = (rc, plan) -> emptyPlan plan ->
  Forall emptyPlan new.
Proof.
  induction 1 as [idx rc Hguard
    | idx rc rc1 plan1 plans idx' rc' Hguard Heq Hfill IH];
    intros Hsame Hempty.
  - constructor.
  - rewrite Hsame in Heq. injection Heq as <- <-.
    constructor; [exact Hempty | apply IH; assumption].
Qed.

Lemma fill_run_empties_last (idx idx' : Z) (rc rc' : list Cut.t)
    (new : list CutPlan.t) :
  fill_run idx rc new idx' rc' ->
  forall (k : nat) (pre post : list CutPlan.t) (p : CutPlan.t),
  new ++ repeat (CutPlan.mk [] stockLength) k = pre ++ p :: post ->
  emptyPlan p -> Forall emptyPlan post.
Proof.
  assert (Hpad : forall k, Forall emptyPlan
                             (repeat (CutPlan.mk [] stockLength) k)).
  { intros k. apply Forall_forall. intros q Hq. apply repeat_spec in Hq.
    rewrite Hq. reflexivity. }
  induction 1 as [idx rc Hguard
    | idx rc rc1 plan plans idx' rc' Hguard Heq Hfill IH];
    intros k pre post p Hsplit Hempty.
  - cbn [app] in Hsplit. specialize (Hpad k). rewrite Hsplit in Hpad.
    apply Forall_app in Hpad. destruct Hpad as [_ Hpad].
    apply Forall_inv_tail in Hpad. exact Hpad.
  - destruct pre as [|q pre]; cbn [app] in Hsplit.
    + injection Hsplit as -> <-.
      pose proof (cutBar_bar_run _ _ _ Heq) as Hrun.
      apply bar_run_nothing in Hrun; [|exact Hempty].
      destruct Hrun as [-> _].
      apply Forall_app. split; [|apply Hpad].
      eapply fill_run_stuck; eassumption.
    + injection Hsplit as _ Hsplit. eapply IH; eassumption.
Qed.

Lemma allocate_empties_last (sorted : list Cut.t)
    (pre post : list CutPlan.t) (p : CutPlan.t) :
  allocate sorted = pre ++ p :: post -> emptyPlan p -> Forall emptyPlan post.
Proof.
  destruct (allocate_run sorted) as (new & idx' & rc' & Hfill & ->).
  apply (fill_run_empties_last _ _ _ _ _ Hfill).
Qed.

End AllocationFacts.

(** ** Two allocations on inputs in different units

    The same job described in two units ([x] in the first is [y * f] in
    the second, with [f] positive) is allocated the same way: every guard
    of the loops and every comparison of the sort has the same outcome. *)

Section Simulation.
Variable f : Q.
Hypothesis f_pos : 0 < f.

Variables stock1 stock2 : Q.
Hypothesis stock_scaled : scaled f stock1 stock2.
Variable numExtrusions : Z.
Variables pushed1 pushed2 : Q -> Q.
Hypothesis pushed_scaled :
  forall x y, scaled f x y -> scaled f (pushed1 x) (pushed2 y).

Lemma Qle_bool_scaled (x y r t : Q) :
  scaled f x y -> scaled f r t -> Qle_bool x r = Qle_bool y t.
Proof.
  unfold scaled. intros Hx Hr. apply eq_true_iff_eq.
  rewrite !Qle_bool_iff, Hx, Hr. apply Qmult_le_r. exact f_pos.
Qed.

Lemma fits_sim (c1 c2 : Cut.t) (rl1 rl2 : Q) :
  cutSim f c1 c2 -> scaled f rl1 rl2 -> fits c1 rl1 = fits c2 rl2.
Proof.
  intros [Hlen Hq] Hrl. unfold fits.
  rewrite Hq, (Qle_bool_scaled _ _ _ _ Hlen Hrl). reflexivity.
Qed.

Lemma placeWhile_sim (fuel : nat) :
  forall (c1 c2 : Cut.t) (cc1 cc2 : list Q) (rl1 rl2 : Q),
  cutSim f c1 c2 -> Forall2 (scaled f) cc1 cc2 -> scaled f rl1 rl2 ->
  stepSim f (placeWhile pushed1 fuel c1 cc1 rl1)
          (placeWhile pushed2 fuel c2 cc2 rl2).
Proof.
  induction fuel as [|fuel IH]; intros c1 c2 cc1 cc2 rl1 rl2 Hc Hcc Hrl.
  - repeat split; try assumption; apply Hc.
  - cbn [placeWhile]. rewrite (fits_sim c1 c2 rl1 rl2 Hc Hrl).
    destruct (fits c2 rl2).
    + destruct Hc as [Hlen Hq]. apply IH.
      * split; cbn [Cut.length Cut.quantity]; [exact Hlen | congruence].
      * apply Forall2_app; [exact Hcc|].
        constructor; [apply pushed_scaled; exact Hlen | constructor].
      * unfold scaled in *. rewrite Hrl, Hlen. ring.
    + repeat split; try assumption; apply Hc.
Qed.

Lemma forEachCut_sim (l1 l2 : list Cut.t) :
  Forall2 (cutSim f) l1 l2 ->
  forall (cc1 cc2 : list Q) (rl1 rl2 : Q),
  Forall2 (scaled f) cc1 cc2 -> scaled f rl1 rl2 ->
  barSim f (forEachCut pushed1 l1 cc1 rl1) (forEachCut pushed2 l2 cc2 rl2).
Proof.
  induction 1 as [|c1 c2 l1 l2 Hc Hl IH]; intros cc1 cc2 rl1 rl2 Hcc Hrl.
  - repeat split; [constructor | exact Hcc | exact Hrl].
  - cbn [forEachCut]. unfold placeCut.
    replace (Cut.quantity c1) with (Cut.quantity c2) by (symmetry; apply Hc).
    pose proof (placeWhile_sim (Z.to_nat (Cut.quantity c2))
                  c1 c2 cc1 cc2 rl1 rl2 Hc Hcc Hrl) as Hstep.
    destruct (placeWhile pushed1 _ c1 cc1 rl1) as [[c1' cc1'] rl1'].
    destruct (placeWhile pushed2 _ c2 cc2 rl2) as [[c2' cc2'] rl2'].
    destruct Hstep as (Hc' & Hcc' & Hrl'). cbn [fst snd] in *.
    specialize (IH cc1' cc2' rl1' rl2' Hcc' Hrl').
    destruct (forEachCut pushed1 l1 cc1' rl1') as [[l1' cc1''] rl1''].
    destruct (forEachCut pushed2 l2 cc2' rl2') as [[l2' cc2''] rl2''].
    destruct IH as (Hl' & Hcc'' & Hrl''). cbn [fst snd] in *.
    repeat split; cbn [fst snd]; try assumption.
    constructor; assumption.
Qed.

Lemma cutBar_sim (rc1 rc2 : list Cut.t) :
  Forall2 (cutSim f) rc1 rc2 ->
  Forall2 (cutSim f) (fst (cutBar stock1 pushed1 rc1))
                 (fst (cutBar stock2 pushed2 rc2))
  /\ planSim f (snd (cutBar stock1 pushed1 rc1))
             (snd (cutBar stock2 pushed2 rc2)).
Proof.
  intros Hrc. rewrite !cutBar_eq. cbn [fst snd].
  destruct (forEachCut_sim rc1 rc2 Hrc [] [] stock1 stock2
              (Forall2_nil _) stock_scaled) as (Hl & Hcc & Hrl).
  split; [exact Hl | split; [exact Hcc | exact Hrl]].
Qed.

Lemma demandLeft_sim (rc1 rc2 : list Cut.t) :
  Forall2 (cutSim f) rc1 rc2 -> demandLeft rc1 = demandLeft rc2.
Proof.
  unfold demandLeft, Array.some.
  induction 1 as [|c1 c2 l1 l2 [_ Hq] Hl IH]; [reflexivity|].
  cbn [existsb]. rewrite Hq, IH. reflexivity.
Qed.

Lemma fillWhile_sim (fuel : nat) :
  forall (idx : Z) (rc1 rc2 : list Cut.t) (plans1 plans2 : list CutPlan.t),
  Forall2 (cutSim f) rc1 rc2 -> Forall2 (planSim f) plans1 plans2 ->
  fst (fst (fillWhile stock1 numExtrusions pushed1 fuel idx rc1 plans1))
  = fst (fst (fillWhile stock2 numExtrusions pushed2 fuel idx rc2 plans2))
  /\ Forall2 (planSim f)
       (snd (fillWhile stock1 numExtrusions pushed1 fuel idx rc1 plans1))
       (snd (fillWhile stock2 numExtrusions pushed2 fuel idx rc2 plans2)).
Proof.
  induction fuel as [|fuel IH]; intros idx rc1 rc2 plans1 plans2 Hrc Hplans.
  - split; [reflexivity | exact Hplans].
  - cbn [fillWhile]. rewrite (demandLeft_sim rc1 rc2 Hrc).
    destruct ((idx <? numExtrusions)%Z && demandLeft rc2).
    + destruct (cutBar_sim rc1 rc2 Hrc) as [Hrc' Hplan].
      destruct (cutBar stock1 pushed1 rc1) as [rc1' plan1].
      destruct (cutBar stock2 pushed2 rc2) as [rc2' plan2].
      cbn [fst snd] in *. apply IH; [exact Hrc'|].
      apply Forall2_app; [exact Hplans | constructor; [exact Hplan | constructor]].
    + split; [reflexivity | exact Hplans].
Qed.

Lemma padWhile_sim (fuel : nat) :
  forall (idx : Z) (plans1 plans2 : list CutPlan.t),
  Forall2 (planSim f) plans1 plans2 ->
  Forall2 (planSim f) (snd (padWhile stock1 numExtrusions fuel idx plans1))
                  (snd (padWhile stock2 numExtrusions fuel idx plans2)).
Proof.
  induction fuel as [|fuel IH]; intros idx plans1 plans2 Hplans.
  - exact Hplans.
  - cbn [padWhile]. destruct (idx <? numExtrusions)%Z; [|exact Hplans].
    apply IH. apply Forall2_app; [exact Hplans|].
    constructor; [|constructor]. split; [constructor | exact stock_scaled].
Qed.

Lemma allocate_sim (sorted1 sorted2 : list Cut.t) :
  Forall2 (cutSim f) sorted1 sorted2 ->
  Forall2 (planSim f) (allocate stock1 numExtrusions pushed1 sorted1)
                  (allocate stock2 numExtrusions pushed2 sorted2).
Proof.
  intros Hsorted. rewrite !allocate_eq.
  destruct (fillWhile_sim (barsLeft numExtrusions 0) 0 sorted1 sorted2 [] []
              Hsorted (Forall2_nil _)) as [Hidx Hplans].
  rewrite Hidx. apply padWhile_sim. exact Hplans.
Qed.

Lemma insert_sim (x1 x2 : Cut.t) (l1 l2 : list Cut.t) :
  cutSim f x1 x2 -> Forall2 (cutSim f) l1 l2 ->
  Forall2 (cutSim f) (Array.insert byLengthDesc x1 l1)
                 (Array.insert byLengthDesc x2 l2).
Proof.
  intros Hx. induction 1 as [|y1 y2 l1 l2 Hy Hl IH].
  - constructor; [exact Hx | constructor].
  - cbn [Array.insert].
    assert (Hcmp : Qle_bool (byLengthDesc x1 y1) 0
                   = Qle_bool (byLengthDesc x2 y2) 0).
    { apply eq_true_iff_eq. rewrite !byLengthDesc_le.
      rewrite <- !Qle_bool_iff.
      rewrite (Qle_bool_scaled _ _ _ _ (proj1 Hy) (proj1 Hx)). reflexivity. }
    rewrite Hcmp. destruct (Qle_bool (byLengthDesc x2 y2) 0).
    + repeat (constructor; try assumption).
    + constructor; assumption.
Qed.

Lemma sort_sim (l1 l2 : list Cut.t) :
  Forall2 (cutSim f) l1 l2 ->
  Forall2 (cutSim f) (Array.sort byLengthDesc l1) (Array.sort byLengthDesc l2).
Proof.
  induction 1 as [|x1 x2 l1 l2 Hx Hl IH]; [constructor|].
  cbn [Array.sort fold_right]. apply insert_sim; assumption.
Qed.
End Simulation.

(** ** [page.tsx]: units *)

Lemma convertFromMm_convertToMm (s : Page.State) (x : Q) :
  Page.convertFromMm s (Page.convertToMm s x) == x.
Proof.
  unfold Page.convertFromMm, Page.convertToMm.
  field. apply unitConversions_nonzero.
Qed.

Lemma convertToMm_convertFromMm (s : Page.State) (x : Q) :
  Page.convertToMm s (Page.convertFromMm s x) == x.
Proof.
  unfold Page.convertFromMm, Page.convertToMm.
  field. apply unitConversions_nonzero.
Qed.

Lemma sumQ_map_convertFromMm (s : Page.State) (l : list Q) :
  Page.convertToMm s (sumQ (map (Page.convertFromMm s) l)) == sumQ l.
Proof.
  induction l as [|x l IH]; cbn [map sumQ fold_right].
  - unfold Page.convertToMm. lra.
  - fold (sumQ (map (Page.convertFromMm s) l)). fold (sumQ l).
    pose proof (convertToMm_convertFromMm s x) as Hx.
    unfold Page.convertToMm in *. lra.
Qed.

Lemma sumQ_add_each (kerf : Q) (l : list Q) :
  sumQ (map (fun x => x + kerf) l)
  == sumQ l + kerf * inject_Z (Z.of_nat (List.length l)).
Proof.
  induction l as [|x l IH].
  - simpl. change (inject_Z 0) with 0. lra.
  - cbn [map sumQ fold_right List.length].
    fold (sumQ (map (fun x => x + kerf) l)). fold (sumQ l).
    rewrite IH, inject_Z_succ. lra.
Qed.

(** The plans of [calculateOptimalCutPlan] are the millimetre plans,
    converted. *)
Lemma in_calculateOptimalCutPlan (s : Page.State) (plan : CutPlan.t) :
  In plan (Page.calculateOptimalCutPlan s) ->
  exists p, In p (Page.plansMm s (Page.sortedCuts s))
            /\ plan = Page.displayPlan s p.
Proof.
  unfold Page.calculateOptimalCutPlan. intros Hin.
  apply in_map_iff in Hin. destruct Hin as (p & Hp & Hin).
  exists p. split; [exact Hin | symmetry; exact Hp].
Qed.

Lemma Qeq_bool_compat (a b c : Q) : a == b -> Qeq_bool a c = Qeq_bool b c.
Proof.
  intros Hab. destruct (Qeq_bool b c) eqn:Hb.
  - apply Qeq_bool_iff. apply Qeq_bool_iff in Hb. lra.
  - destruct (Qeq_bool a c) eqn:Ha; [|reflexivity].
    apply Qeq_bool_iff in Ha.
    assert (Hbc : Qeq_bool b c = true) by (apply Qeq_bool_iff; lra).
    congruence.
Qed.

Lemma demand_ext (sel1 sel2 : Q -> bool) (l : list Cut.t) :
  (forall cut, In cut l -> sel1 (Cut.length cut) = sel2 (Cut.length cut)) ->
  demand sel1 l = demand sel2 l.
Proof.
  induction l as [|cut l IH]; intros Hsel; [reflexivity|].
  cbn [demand]. rewrite (Hsel cut) by (left; reflexivity).
  rewrite IH; [reflexivity|]. intros c Hc. apply Hsel. right; exact Hc.
Qed.

Lemma demand_perm (sel : Q -> bool) (l1 l2 : list Cut.t) :
  Permutation l1 l2 -> demand sel l1 = demand sel l2.
Proof.
  induction 1 as [|x l1 l2 Hperm IH|x y l|l1 l2 l3 H12 IH12 H23 IH23];
    cbn [demand].
  - reflexivity.
  - rewrite IH. reflexivity.
  - destruct (sel (Cut.length x)), (sel (Cut.length y)); lia.
  - congruence.
Qed.

Lemma demand_requested (len : Q) (l : list Cut.t) :
  (forall cut, In cut l -> (0 <= Cut.quantity cut)%Z) ->
  demand (fun x => Qeq_bool x len) l = requested len l.
Proof.
  induction l as [|cut l IH]; intros Hq; [reflexivity|].
  cbn [demand requested]. rewrite IH by (intros c Hc; apply Hq; right; exact Hc).
  specialize (Hq cut (or_introl eq_refl)).
  destruct (Qeq_bool (Cut.length cut) len); lia.
Qed.

(** The demand seen by the loops is the demand of the caller's requests. *)
Lemma demand_sortedCuts (s : Page.State) (sel : Q -> bool) :
  demand sel (Page.sortedCuts s)
  = demand (fun len => sel (Page.convertToMm s len + Page.getKerfInMm s))
      (Page.cuts s).
Proof.
  unfold Page.sortedCuts.
  rewrite (demand_perm sel _ _ (sort_perm byLengthDesc (Page.convertedCuts s))).
  unfold Page.convertedCuts.
  induction (Page.cuts s) as [|cut l IH]; [reflexivity|].
  cbn [map demand Cut.length Cut.quantity]. rewrite IH. reflexivity.
Qed.

Lemma countIf_map (p : Q -> bool) (f : Q -> Q) (l : list Q) :
  countIf p (map f l) = countIf (fun x => p (f x)) l.
Proof.
  unfold countIf. induction l as [|x l IH]; [reflexivity|].
  cbn [map filter]. destruct (p (f x)); cbn [List.length]; lia.
Qed.

Lemma countIf_none (p : Q -> bool) (l : list Q) :
  Forall (fun x => p x = false) l -> countIf p l = 0%Z.
Proof.
  unfold countIf. induction 1 as [|x l Hx Hl IH]; [reflexivity|].
  cbn [filter]. rewrite Hx. exact IH.
Qed.

Lemma placedCount_display (s : Page.State) (p : Q -> bool)
    (plans : list CutPlan.t) :
  placedCount p (map (Page.displayPlan s) plans)
  = placedCount (fun x => p (Page.convertFromMm s x)) plans.
Proof.
  induction plans as [|plan plans IH]; [reflexivity|].
  cbn [map placedCount Page.displayPlan CutPlan.cuts].
  rewrite countIf_map, IH. reflexivity.
Qed.

Lemma calculateOptimalCutPlan_length (s : Page.State) :
  List.length (Page.calculateOptimalCutPlan s)
  = Z.to_nat (Page.numExtrusions s).
Proof.
  unfold Page.calculateOptimalCutPlan, Page.plansMm.
  rewrite length_map. apply allocate_length.
Qed.

(** An empty plan carries the whole stock length as waste. *)
Lemma plansMm_empty_waste (s : Page.State) (sorted : list Cut.t)
    (p : CutPlan.t) :
  In p (Page.plansMm s sorted) -> emptyPlan p ->
  CutPlan.waste p = Page.convertToMm s (Page.extrusionLength s).
Proof.
  intros Hin.
  assert (Hall : Forall (fun p => emptyPlan p ->
                                  CutPlan.waste p
                                  = Page.convertToMm s (Page.extrusionLength s))
                   (Page.plansMm s sorted)).
  { unfold Page.plansMm.
    apply allocate_Forall with (I := fun _ => True);
      [| reflexivity | exact I].
    intros rc rc' new rl _ Hrun. split; [exact I|].
    unfold emptyPlan. cbn [CutPlan.cuts CutPlan.waste]. intros Hnew.
    apply (bar_run_nothing _ _ _ _ _ _ Hrun Hnew). }
  rewrite Forall_forall in Hall. apply Hall; exact Hin.
Qed.

(** C5 (unit round trip).  For every unit and every value [x],
    [convertToMm] multiplies by the unit's factor, [convertFromMm] divides
    by the same factor, and converting to millimetres and back gives [x]
    again (and so does the other way round). *)
Theorem unit_round_trip (s : Page.State) (x : Q) :
  Page.convertToMm s x = x * unitConversions (Page.unit s)
  /\ Page.convertFromMm s x = x / unitConversions (Page.unit s)
  /\ Page.convertFromMm s (Page.convertToMm s x) == x
  /\ Page.convertToMm s (Page.convertFromMm s x) == x.
Proof.
  split; [reflexivity|]. split; [reflexivity|]. split.
  - apply convertFromMm_convertToMm.
  - apply convertToMm_convertFromMm.
Qed.

(** C1 (conservation).  For every returned plan, in millimetres: the sum
    of the placed cuts, plus the kerf times the number of placed cuts,
    plus the waste, is the stock length.  No precondition is needed. *)
Theorem conservation (s : Page.State) (plan : CutPlan.t) :
  In plan (Page.calculateOptimalCutPlan s) ->
  Page.convertToMm s (sumQ (CutPlan.cuts plan))
  + Page.getKerfInMm s * inject_Z (Z.of_nat (List.length (CutPlan.cuts plan)))
  + Page.convertToMm s (CutPlan.waste plan)
  == Page.convertToMm s (Page.extrusionLength s).
Proof.
  intros Hin. apply in_calculateOptimalCutPlan in Hin.
  destruct Hin as (p & Hp & ->).
  assert (Hall : Forall (fun p => sumQ (map (fun x => x + Page.getKerfInMm s)
                                          (CutPlan.cuts p))
                                  + CutPlan.waste p
                                  == Page.convertToMm s (Page.extrusionLength s))
                   (Page.plansMm s (Page.sortedCuts s))).
  { unfold Page.plansMm.
    apply allocate_Forall with (I := fun _ => True); [| simpl; lra | exact I].
    intros rc rc' new rl _ Hrun. split; [exact I|]. cbn [CutPlan.cuts CutPlan.waste].
    apply (bar_run_balance _ (fun x => x + Page.getKerfInMm s)) in Hrun;
      [exact Hrun|].
    intros len. lra. }
  rewrite Forall_forall in Hall. specialize (Hall p Hp).
  rewrite sumQ_add_each in Hall.
  cbn [Page.displayPlan CutPlan.cuts CutPlan.waste].
  rewrite sumQ_map_convertFromMm, length_map, convertToMm_convertFromMm.
  exact Hall.
Qed.

(** C9 (waste is never negative).  With a stock length that is not
    negative, every returned plan has a waste that is not negative. *)
Theorem waste_nonneg (s : Page.State) (plan : CutPlan.t) :
  0 <= Page.extrusionLength s ->
  In plan (Page.calculateOptimalCutPlan s) ->
  0 <= CutPlan.waste plan.
Proof.
  intros Hstock Hin. apply in_calculateOptimalCutPlan in Hin.
  destruct Hin as (p & Hp & ->).
  pose proof (unitConversions_pos (Page.unit s)) as Hf.
  assert (Hmm : 0 <= Page.convertToMm s (Page.extrusionLength s)).
  { unfold Page.convertToMm. apply Qmult_le_0_compat; lra. }
  assert (Hall : Forall (fun p => 0 <= CutPlan.waste p)
                   (Page.plansMm s (Page.sortedCuts s))).
  { unfold Page.plansMm.
    apply allocate_Forall with (I := fun _ => True); [| exact Hmm | exact I].
    intros rc rc' new rl _ Hrun. split; [exact I|]. cbn [CutPlan.waste].
    eapply bar_run_nonneg; eassumption. }
  rewrite Forall_forall in Hall. specialize (Hall p Hp).
  cbn [Page.displayPlan CutPlan.waste]. unfold Page.convertFromMm.
  apply Qle_shift_div_l; lra.
Qed.

(** C2 (bar count).  With a number of extrusions that is not negative, the
    result has exactly that many plans; a slot reached when the whole
    demand has already been placed is an empty plan whose waste is the
    stock length; and so is every plan without cuts. *)
Theorem bar_count (s : Page.State) :
  (0 <= Page.numExtrusions s)%Z ->
  Z.of_nat (List.length (Page.calculateOptimalCutPlan s))
  = Page.numExtrusions s
  /\ (forall (i : nat) (plan : CutPlan.t),
        nth_error (Page.calculateOptimalCutPlan s) i = Some plan ->
        placedCount anyLength (firstn i (Page.calculateOptimalCutPlan s))
        = demand anyLength (Page.cuts s) ->
        CutPlan.cuts plan = []
        /\ CutPlan.waste plan == Page.extrusionLength s)
  /\ (forall plan : CutPlan.t,
        In plan (Page.calculateOptimalCutPlan s) ->
        CutPlan.cuts plan = [] ->
        CutPlan.waste plan == Page.extrusionLength s).
Proof.
  intros Hn. split; [|split].
  - rewrite calculateOptimalCutPlan_length. lia.
  - intros i plan Hnth Hcount.
    unfold Page.calculateOptimalCutPlan in Hnth, Hcount.
    rewrite nth_error_map in Hnth.
    destruct (nth_error (Page.plansMm s (Page.sortedCuts s)) i)
      as [p|] eqn:Hp; [|discriminate].
    injection Hnth as <-.
    rewrite firstn_map, placedCount_display in Hcount.
    change (fun x => anyLength (Page.convertFromMm s x)) with anyLength
      in Hcount.
    assert (Hd : demand anyLength (Page.sortedCuts s)
                 = demand anyLength (Page.cuts s))
      by (rewrite demand_sortedCuts; reflexivity).
    rewrite <- Hd in Hcount.
    unfold Page.plansMm in Hp, Hcount.
    apply allocate_idle in Hp; [|exact Hcount].
    rewrite Hp. cbn [Page.displayPlan CutPlan.cuts CutPlan.waste map].
    split; [reflexivity | apply convertFromMm_convertToMm].
  - intros plan Hin Hempty. apply in_calculateOptimalCutPlan in Hin.
    destruct Hin as (p & Hp & ->).
    cbn [Page.displayPlan CutPlan.cuts CutPlan.waste] in *.
    apply map_eq_nil in Hempty.
    rewrite (plansMm_empty_waste s _ p Hp Hempty).
    apply convertFromMm_convertToMm.
Qed.

(** C3 (the default job).  Stock 2000, ten bars, kerf 3.2, six pieces of
    1500: bars 1 to 6 carry one cut of 1500 and waste 496.8, bars 7 to 10
    are empty with waste 2000. *)
Theorem default_job_plans :
  Forall2 planEq (Page.calculateOptimalCutPlan defaultJob)
    (repeat (CutPlan.mk [1500] (4968 # 10)) 6
     ++ repeat (CutPlan.mk [] 2000) 4).
Proof.
  vm_compute.
  repeat (apply Forall2_cons || apply Forall2_nil || split || reflexivity).
Qed.

(** Every piece placed by [page.tsx] fits the stock length together with
    its kerf; the descending order of the requests is what makes this true
    without any assumption on the signs of the inputs. *)
Lemma plansMm_placed_bound (s : Page.State) :
  Forall (fun p =>
            Forall (fun x => exists len,
                        x = len - Page.getKerfInMm s
                        /\ len <= Page.convertToMm s (Page.extrusionLength s))
                   (CutPlan.cuts p))
         (Page.plansMm s (Page.sortedCuts s)).
Proof.
  unfold Page.plansMm.
  apply allocate_Forall with (I := descSorted).
  - intros rc rc' new rl Hs Hrun. split.
    + apply (descSorted_lengths rc); [|exact Hs].
      eapply bar_run_lengths; exact Hrun.
    + cbn [CutPlan.cuts].
      apply (bar_run_bound _ _ _ _ _ _ _ Hrun Hs). apply Qle_refl.
  - constructor.
  - apply sort_descSorted.
Qed.

Lemma oversizedJob_plans :
  Page.calculateOptimalCutPlan oversizedJob = [CutPlan.mk [] 1000].
Proof. reflexivity. Qed.

(** C4 (a piece longer than the stock).  When a length, with the kerf
    added, exceeds the stock length, the computation still returns its
    [numExtrusions] plans and no plan holds a cut of that length.  On
    stock 1000, one bar, kerf 0 and one piece of 1200 the result is the
    single plan with no cut and waste 1000. *)
Theorem oversized_request_never_placed (s : Page.State) (len : Q) :
  Page.convertToMm s (Page.extrusionLength s)
  < Page.convertToMm s len + Page.getKerfInMm s ->
  List.length (Page.calculateOptimalCutPlan s)
  = Z.to_nat (Page.numExtrusions s)
  /\ placedCount (fun x => Qeq_bool x len) (Page.calculateOptimalCutPlan s)
     = 0%Z
  /\ Page.calculateOptimalCutPlan oversizedJob = [CutPlan.mk [] 1000].
Proof.
  intros Hbig. split; [apply calculateOptimalCutPlan_length|].
  split; [|exact oversizedJob_plans].
  unfold Page.calculateOptimalCutPlan. rewrite placedCount_display.
  pose proof (plansMm_placed_bound s) as Hall.
  induction Hall as [|p plans Hp Hall IH]; [reflexivity|].
  cbn [placedCount]. rewrite IH, countIf_none; [reflexivity|].
  eapply Forall_impl; [|exact Hp]. cbn beta.
  intros x (len' & -> & Hlen').
  destruct (Qeq_bool (Page.convertFromMm s (len' - Page.getKerfInMm s)) len)
    eqn:Heq; [|reflexivity].
  apply Qeq_bool_iff in Heq.
  pose proof (convertToMm_convertFromMm s (len' - Page.getKerfInMm s)) as Hback.
  unfold Page.convertToMm in *. rewrite Heq in Hback. lra.
Qed.

(** C6 (monotonic satisfaction).  With quantities that are not negative,
    the cuts of length [len] placed over all the plans never exceed the
    quantity requested for [len] over all the requests of that length. *)
Theorem monotonic_satisfaction (s : Page.State) (len : Q) :
  (forall cut, In cut (Page.cuts s) -> (0 <= Cut.quantity cut)%Z) ->
  (placedCount (fun x => Qeq_bool x len) (Page.calculateOptimalCutPlan s)
   <= requested len (Page.cuts s))%Z.
Proof.
  intros Hq. unfold Page.calculateOptimalCutPlan, Page.plansMm.
  rewrite placedCount_display, <- (demand_requested len _ Hq).
  eapply Z.le_trans.
  - apply allocate_demand
      with (sel := fun l => Qeq_bool
                             (Page.convertFromMm s (l - Page.getKerfInMm s))
                             len).
    reflexivity.
  - rewrite demand_sortedCuts. apply Z.eq_le_incl. apply demand_ext.
    intros cut _. apply Qeq_bool_compat.
    unfold Page.convertFromMm, Page.convertToMm.
    field. apply unitConversions_nonzero.
Qed.

(** C10 (empty bars come last).  If the plan at index [i] has no cut, no
    plan at a later index [j] has one. *)
Theorem empty_plans_last (s : Page.State) (i j : nat) (p q : CutPlan.t) :
  (i < j)%nat ->
  nth_error (Page.calculateOptimalCutPlan s) i = Some p ->
  nth_error (Page.calculateOptimalCutPlan s) j = Some q ->
  CutPlan.cuts p = [] -> CutPlan.cuts q = [].
Proof.
  intros Hij Hi Hj Hp.
  apply nth_error_split in Hi. destruct Hi as (pre & post & Hsplit & Hlen).
  assert (Hq : In q post).
  { rewrite Hsplit in Hj. rewrite nth_error_app2 in Hj by lia.
    rewrite Hlen in Hj. destruct (j - i)%nat as [|d] eqn:Hd; [lia|].
    cbn [nth_error] in Hj. eapply nth_error_In; exact Hj. }
  unfold Page.calculateOptimalCutPlan in Hsplit.
  apply map_eq_app in Hsplit. destruct Hsplit as (pre' & rest & Hall & _ & Hrest).
  apply map_eq_cons in Hrest. destruct Hrest as (p' & post' & -> & Hp' & Hpost).
  subst p post. cbn [Page.displayPlan CutPlan.cuts] in Hp.
  apply map_eq_nil in Hp.
  unfold Page.plansMm in Hall. apply allocate_empties_last in Hall; [|exact Hp].
  apply in_map_iff in Hq. destruct Hq as (q' & <- & Hq').
  rewrite Forall_forall in Hall. specialize (Hall q' Hq').
  unfold emptyPlan in Hall. cbn [Page.displayPlan CutPlan.cuts].
  rewrite Hall. reflexivity.
Qed.

(** Numerically equal states give numerically equal plans. *)
Lemma calculateOptimalCutPlan_stateEq (s1 s2 : Page.State) :
  stateEq s1 s2 ->
  Forall2 planEq (Page.calculateOptimalCutPlan s1)
                 (Page.calculateOptimalCutPlan s2).
Proof.
  intros (Hn & HE & Hcuts & Hu & Hk & Hku).
  assert (Hkerf : Page.getKerfInMm s1 == Page.getKerfInMm s2).
  { unfold Page.getKerfInMm. rewrite Hku, Hk. reflexivity. }
  assert (Hto : forall x y, x == y ->
                  scaled 1 (Page.convertToMm s1 x) (Page.convertToMm s2 y)).
  { intros x y Hxy. unfold scaled, Page.convertToMm. rewrite Hu, Hxy. ring. }
  assert (Hsim : Forall2 (planSim 1)
                   (Page.plansMm s1 (Page.sortedCuts s1))
                   (Page.plansMm s2 (Page.sortedCuts s2))).
  { unfold Page.plansMm. rewrite Hn. apply allocate_sim.
    - reflexivity.
    - apply Hto; exact HE.
    - intros x y Hxy. unfold scaled in *. lra.
    - unfold Page.sortedCuts. apply sort_sim; [reflexivity|].
      unfold Page.convertedCuts.
      induction Hcuts as [|c1 c2 l1 l2 [Hlen Hq] Hl IH]; [constructor|].
      cbn [map]. constructor; [|exact IH].
      split; cbn [Cut.length Cut.quantity]; [|exact Hq].
      unfold scaled in Hlen.
      specialize (Hto (Cut.length c1) (Cut.length c2)).
      unfold scaled in *. rewrite Hto by lra. lra. }
  unfold Page.calculateOptimalCutPlan.
  assert (Hfrom : forall x y, scaled 1 x y ->
                    Page.convertFromMm s1 x == Page.convertFromMm s2 y).
  { intros x y Hxy. unfold scaled in Hxy. unfold Page.convertFromMm.
    rewrite Hu, Hxy. field. apply unitConversions_nonzero. }
  induction Hsim as [|p q l1 l2 [Hc Hw] Hl IH]; [constructor|].
  cbn [map]. constructor; [|exact IH].
  split; cbn [Page.displayPlan CutPlan.cuts CutPlan.waste].
  - induction Hc as [|x y c1 c2 Hxy Hc IHc]; [constructor|].
    cbn [map]. constructor; [apply Hfrom; exact Hxy | exact IHc].
  - apply Hfrom; exact Hw.
Qed.

(** C7 (determinism).  The working list is the stable descending sort of
    the converted requests; any list with these two properties is that
    very list, so the plans do not depend on how the engine sorts; equal
    inputs give equal outputs, and inputs that hold the same numbers give
    outputs that hold the same numbers. *)
Theorem determinism (s : Page.State) :
  stableDescSort (Page.convertedCuts s) (Page.sortedCuts s)
  /\ (forall sorted : list Cut.t,
        stableDescSort (Page.convertedCuts s) sorted ->
        sorted = Page.sortedCuts s
        /\ map (Page.displayPlan s) (Page.plansMm s sorted)
           = Page.calculateOptimalCutPlan s)
  /\ (forall s' : Page.State,
        s' = s ->
        Page.calculateOptimalCutPlan s' = Page.calculateOptimalCutPlan s)
  /\ (forall s' : Page.State,
        stateEq s' s ->
        Forall2 planEq (Page.calculateOptimalCutPlan s')
                       (Page.calculateOptimalCutPlan s)).
Proof.
  split; [apply sort_stableDescSort|]. split; [|split].
  - intros sorted [Hs Hcls].
    assert (Heq : sorted = Page.sortedCuts s).
    { apply stable_sort_unique; [exact Hs | apply sort_descSorted |].
      intros len. rewrite Hcls. symmetry. apply sort_ofLength. }
    split; [exact Heq|]. rewrite Heq. reflexivity.
  - intros s' ->. reflexivity.
  - intros s'. apply calculateOptimalCutPlan_stateEq.
Qed.

(** ** The kerf-free component *)

Lemma displayPlan_planEq (s : Page.State) (p q : CutPlan.t) :
  planSim (unitConversions (Page.unit s)) p q ->
  planEq (Page.displayPlan s p) q.
Proof.
  assert (Hback : forall x y,
             scaled (unitConversions (Page.unit s)) x y ->
             Page.convertFromMm s x == y).
  { intros x y Hxy. unfold scaled in Hxy. unfold Page.convertFromMm.
    rewrite Hxy. field. apply unitConversions_nonzero. }
  intros [Hcuts Hwaste]. split; cbn [Page.displayPlan CutPlan.cuts CutPlan.waste].
  - induction Hcuts as [|x y l1 l2 Hxy Hl IH]; [constructor|].
    cbn [map]. constructor; [apply Hback; exact Hxy | exact IH].
  - apply Hback; exact Hwaste.
Qed.

Lemma getKerfInMm_zero (s : Page.State) :
  Page.kerfWidth s == 0 -> Page.getKerfInMm s == 0.
Proof. intros H. unfold Page.getKerfInMm. rewrite H. ring. Qed.

(** C8 (zero-kerf reduction).  With a kerf width of zero and the form in
    millimetres (canonical-unit inputs), the effective length of every
    request is its nominal length, and [page.tsx] returns, plan by plan
    and number by number, what the kerf-free component returns on the same
    stock length, bar count and requests. *)
Theorem zero_kerf_reduction (s : Page.State) :
  Page.kerfWidth s == 0 ->
  Page.unit s = mm ->
  Forall2 (fun converted cut =>
             Cut.length converted == Cut.length cut
             /\ Cut.quantity converted = Cut.quantity cut)
          (Page.convertedCuts s) (Page.cuts s)
  /\ Forall2 planEq (Page.calculateOptimalCutPlan s)
       (Component.calculateOptimalCutPlan (kerfFree s)).
Proof.
  intros Hkerf Hmm. apply getKerfInMm_zero in Hkerf.
  split.
  - unfold Page.convertedCuts.
    induction (Page.cuts s) as [|cut l IH]; [constructor|].
    cbn [map]. constructor; [|exact IH].
    cbn [Cut.length Cut.quantity]. split; [|reflexivity].
    unfold Page.convertToMm. rewrite Hmm. cbn [unitConversions]. lra.
  - assert (Hsim : Forall2 (planSim (unitConversions (Page.unit s)))
                     (Page.plansMm s (Page.sortedCuts s))
                     (Component.calculateOptimalCutPlan (kerfFree s))).
    { unfold Page.plansMm, Component.calculateOptimalCutPlan.
      apply allocate_sim.
      - apply unitConversions_pos.
      - unfold scaled, Page.convertToMm. reflexivity.
      - intros x y Hxy. unfold scaled in *. lra.
      - unfold Page.sortedCuts, Component.sortedCuts.
        apply sort_sim; [apply unitConversions_pos|].
        unfold Page.convertedCuts, kerfFree. cbn [Component.cuts].
        induction (Page.cuts s) as [|cut l IH]; [constructor|].
        cbn [map]. constructor; [|exact IH].
        split; cbn [Cut.length Cut.quantity]; [|reflexivity].
        unfold scaled, Page.convertToMm. lra. }
    unfold Page.calculateOptimalCutPlan.
    induction Hsim as [|p q l1 l2 Hpq Hl IH]; [constructor|].
    cbn [map]. constructor; [apply displayPlan_planEq; exact Hpq | exact IH].
Qed.

(** ** The theorems at work on the two scenarios *)

Lemma conservation_witness :
  In (CutPlan.mk [150000 # 100] (4968 # 10))
     (Page.calculateOptimalCutPlan defaultJob)
  /\ Page.convertToMm defaultJob (sumQ [150000 # 100])
     + Page.getKerfInMm defaultJob * inject_Z (Z.of_nat 1)
     + Page.convertToMm defaultJob (4968 # 10)
     == Page.convertToMm defaultJob 2000.
Proof.
  assert (Hin : In (CutPlan.mk [150000 # 100] (4968 # 10))
                   (Page.calculateOptimalCutPlan defaultJob))
    by (vm_compute; left; reflexivity).
  split; [exact Hin | exact (conservation defaultJob _ Hin)].
Defined.

Lemma waste_nonneg_witness :
  0 <= Page.extrusionLength defaultJob
  /\ In (CutPlan.mk [150000 # 100] (4968 # 10))
        (Page.calculateOptimalCutPlan defaultJob)
  /\ 0 <= 4968 # 10.
Proof.
  assert (Hstock : 0 <= Page.extrusionLength defaultJob)
    by (vm_compute; discriminate).
  assert (Hin : In (CutPlan.mk [150000 # 100] (4968 # 10))
                   (Page.calculateOptimalCutPlan defaultJob))
    by (vm_compute; left; reflexivity).
  split; [exact Hstock|]. split; [exact Hin|].
  exact (waste_nonneg defaultJob _ Hstock Hin).
Defined.

Lemma bar_count_witness :
  (0 <= Page.numExtrusions defaultJob)%Z
  /\ Z.of_nat (List.length (Page.calculateOptimalCutPlan defaultJob)) = 10%Z.
Proof.
  assert (Hn : (0 <= Page.numExtrusions defaultJob)%Z)
    by (vm_compute; discriminate).
  split; [exact Hn | exact (proj1 (bar_count defaultJob Hn))].
Defined.

Lemma oversized_request_never_placed_witness :
  Page.convertToMm oversizedJob (Page.extrusionLength oversizedJob)
  < Page.convertToMm oversizedJob 1200 + Page.getKerfInMm oversizedJob
  /\ placedCount (fun x => Qeq_bool x 1200)
       (Page.calculateOptimalCutPlan oversizedJob) = 0%Z.
Proof.
  assert (Hbig : Page.convertToMm oversizedJob
                   (Page.extrusionLength oversizedJob)
                 < Page.convertToMm oversizedJob 1200
                   + Page.getKerfInMm oversizedJob)
    by (vm_compute; reflexivity).
  split; [exact Hbig|].
  exact (proj1 (proj2 (oversized_request_never_placed oversizedJob 1200 Hbig))).
Defined.

Lemma monotonic_satisfaction_witness :
  (forall cut, In cut (Page.cuts defaultJob) -> (0 <= Cut.quantity cut)%Z)
  /\ (placedCount (fun x => Qeq_bool x 1500)
        (Page.calculateOptimalCutPlan defaultJob)
      <= requested 1500 (Page.cuts defaultJob))%Z.
Proof.
  assert (Hq : forall cut, In cut (Page.cuts defaultJob) ->
                           (0 <= Cut.quantity cut)%Z).
  { intros cut [<- | []]. simpl. lia. }
  split; [exact Hq | exact (monotonic_satisfaction defaultJob 1500 Hq)].
Defined.

Lemma empty_plans_last_witness :
  (6 < 9)%nat
  /\ nth_error (Page.calculateOptimalCutPlan defaultJob) 6
     = Some (CutPlan.mk [] 2000)
  /\ nth_error (Page.calculateOptimalCutPlan defaultJob) 9
     = Some (CutPlan.mk [] 2000)
  /\ CutPlan.cuts (CutPlan.mk [] 2000) = [].
Proof.
  assert (Hij : (6 < 9)%nat) by lia.
  assert (H6 : nth_error (Page.calculateOptimalCutPlan defaultJob) 6
               = Some (CutPlan.mk [] 2000)) by (vm_compute; reflexivity).
  assert (H9 : nth_error (Page.calculateOptimalCutPlan defaultJob) 9
               = Some (CutPlan.mk [] 2000)) by (vm_compute; reflexivity).
  split; [exact Hij|]. split; [exact H6|]. split; [exact H9|].
  exact (empty_plans_last defaultJob 6 9 _ _ Hij H6 H9 eq_refl).
Defined.

Lemma determinism_witness :
  stableDescSort (Page.convertedCuts defaultJob)
    [Cut.mk (1500 * 1 + (32 # 10) * 1) 6]
  /\ map (Page.displayPlan defaultJob)
       (Page.plansMm defaultJob [Cut.mk (1500 * 1 + (32 # 10) * 1) 6])
     = Page.calculateOptimalCutPlan defaultJob.
Proof.
  assert (Hs : stableDescSort (Page.convertedCuts defaultJob)
                 [Cut.mk (1500 * 1 + (32 # 10) * 1) 6]).
  { split; [repeat constructor | intros len; reflexivity]. }
  split; [exact Hs|].
  exact (proj2 (proj1 (proj2 (determinism defaultJob)) _ Hs)).
Defined.

Lemma zero_kerf_reduction_witness :
  Page.kerfWidth zeroKerfJob == 0
  /\ Page.unit zeroKerfJob = mm
  /\ Forall2 planEq (Page.calculateOptimalCutPlan zeroKerfJob)
       (Component.calculateOptimalCutPlan (kerfFree zeroKerfJob)).
Proof.
  assert (Hk : Page.kerfWidth zeroKerfJob == 0) by reflexivity.
  assert (Hmm : Page.unit zeroKerfJob = mm) by reflexivity.
  split; [exact Hk|]. split; [exact Hmm|].
  exact (proj2 (zero_kerf_reduction zeroKerfJob Hk Hmm)).
Defined.

(** * The rest of the component *)

(** ** More on the loops *)

Lemma fits_iff (cut : Cut.t) (rl : Q) :
  fits cut rl = true <-> (0 < Cut.quantity cut)%Z /\ Cut.length cut <= rl.
Proof.
  unfold fits. rewrite andb_true_iff, Z.ltb_lt, Qle_bool_iff. reflexivity.
Qed.

Section MoreAllocationFacts.
Variable stockLength : Q.
Variable numExtrusions : Z.
Variable pushed : Q -> Q.

Local Abbreviation cutBar := (cutBar stockLength pushed).
Local Abbreviation allocate := (allocate stockLength numExtrusions pushed).
Local Abbreviation bar_run := (bar_run pushed).
Local Abbreviation fill_run := (fill_run stockLength numExtrusions pushed).

(** Requests keep their place and their length, and only lose pieces. *)
Lemma bar_run_later (l l' : list Cut.t) (rl rl' : Q) (new : list Q) :
  bar_run l rl l' new rl' -> Forall2 laterCut l l'.
Proof.
  induction 1 as [rl | cut rest rl k rl1 rest' new rl' Hp Hexit Hrun IH].
  - constructor.
  - constructor; [|exact IH].
    split; cbn [afterPlacing Cut.length Cut.quantity]; [reflexivity | lia].
Qed.

Lemma laterCut_trans (l1 l2 l3 : list Cut.t) :
  Forall2 laterCut l1 l2 -> Forall2 laterCut l2 l3 -> Forall2 laterCut l1 l3.
Proof.
  intros H12. revert l3.
  induction H12 as [|a b l1 l2 [Hlen Hq] H12 IH]; intros l3 H23;
    inversion H23 as [|b' c l2' l3' [Hlen' Hq'] H23']; subst.
  - constructor.
  - constructor; [|apply IH; exact H23'].
    split; [congruence | lia].
Qed.

Lemma laterCut_refl (l : list Cut.t) : Forall2 laterCut l l.
Proof.
  induction l as [|a l IH]; constructor; [|exact IH].
  split; [reflexivity | lia].
Qed.

Lemma fill_run_later (idx idx' : Z) (rc rc' : list Cut.t)
    (new : list CutPlan.t) :
  fill_run idx rc new idx' rc' -> Forall2 laterCut rc rc'.
Proof.
  induction 1 as [idx rc Hguard
    | idx rc rc1 plan plans idx' rc' Hguard Heq Hfill IH].
  - apply laterCut_refl.
  - apply cutBar_bar_run in Heq. apply bar_run_later in Heq.
    eapply laterCut_trans; eassumption.
Qed.

(** The first loop stops on its guard. *)
Lemma fill_run_final (idx idx' : Z) (rc rc' : list Cut.t)
    (new : list CutPlan.t) :
  fill_run idx rc new idx' rc' ->
  (idx' <? numExtrusions)%Z && demandLeft rc' = false.
Proof.
  induction 1 as [idx rc Hguard
    | idx rc rc1 plan plans idx' rc' Hguard Heq Hfill IH];
    assumption.
Qed.

Lemma demandLeft_false (rc : list Cut.t) :
  demandLeft rc = false -> demand anyLength rc = 0%Z.
Proof.
  unfold demandLeft, Array.some.
  induction rc as [|cut rc IH]; [reflexivity|].
  cbn [existsb demand anyLength]. intros H.
  apply orb_false_iff in H. destruct H as [Hq Hrest].
  apply Z.ltb_ge in Hq. rewrite (IH Hrest). lia.
Qed.

(** With lengths that are not negative, what is left of a bar only
    shrinks. *)
Lemma bar_run_shrinks (l l' : list Cut.t) (rl rl' : Q) (new : list Q) :
  bar_run l rl l' new rl' ->
  Forall (fun cut => 0 <= Cut.length cut) l -> rl' <= rl.
Proof.
  induction 1 as [rl | cut rest rl k rl1 rest' new rl' Hp Hexit Hrun IH];
    intros Hpos.
  - apply Qle_refl.
  - apply Forall_cons_iff in Hpos. destruct Hpos as [Hcut Hrest].
    specialize (IH Hrest). pose proof (placed_sum _ _ _ _ Hp) as Hsum.
    assert (Hk : 0 <= inject_Z (Z.of_nat k) * Cut.length cut).
    { apply Qmult_le_0_compat; [|exact Hcut].
      change 0 with (inject_Z 0). rewrite <- Zle_Qle. lia. }
    lra.
Qed.

(** A request that still wants pieces after a bar did not fit in what the
    bar has left. *)
Lemma bar_run_tight (l l' : list Cut.t) (rl rl' : Q) (new : list Q) :
  bar_run l rl l' new rl' ->
  Forall (fun cut => 0 <= Cut.length cut) l ->
  Forall (fun cut' => (0 < Cut.quantity cut')%Z -> rl' < Cut.length cut') l'.
Proof.
  induction 1 as [rl | cut rest rl k rl1 rest' new rl' Hp Hexit Hrun IH];
    intros Hpos.
  - constructor.
  - apply Forall_cons_iff in Hpos. destruct Hpos as [Hcut Hrest].
    constructor; [|apply IH; exact Hrest].
    intros Hq. pose proof (bar_run_shrinks _ _ _ _ _ Hrun Hrest) as Hle.
    destruct (Qlt_le_dec rl1 (Cut.length (afterPlacing cut k))) as [Hlt|Hge];
      [lra|].
    assert (Hfit : fits (afterPlacing cut k) rl1 = true)
      by (apply (proj2 (fits_iff _ _)); split; assumption).
    congruence.
Qed.

(** A bar opened while some request that still wants pieces fits the
    stock length places at least one piece. *)
Lemma bar_run_progress (l l' : list Cut.t) (rl rl' : Q) (new : list Q) :
  bar_run l rl l' new rl' ->
  Exists (fun cut => (0 < Cut.quantity cut)%Z /\ Cut.length cut <= rl) l ->
  new <> [].
Proof.
  induction 1 as [rl | cut rest rl k rl1 rest' new rl' Hp Hexit Hrun IH];
    intros Hex Hnil.
  - inversion Hex.
  - apply app_eq_nil in Hnil. destruct Hnil as [Hk Hnew].
    destruct k as [|k]; [|discriminate].
    rewrite afterPlacing_0 in Hexit.
    rewrite (placed_none _ _ _ _ Hp eq_refl) in *.
    apply Exists_cons in Hex. destruct Hex as [[Hq Hlen] | Hex].
    + assert (Hfit : fits cut rl = true)
        by (apply (proj2 (fits_iff _ _)); split; assumption).
      congruence.
    + apply (IH Hex Hnew).
Qed.

(** In a list in descending order, the pieces of one bar are pushed in
    descending order. *)
Lemma bar_run_descending (l l' : list Cut.t) (rl rl' : Q) (new : list Q) :
  (forall a b, a <= b -> pushed a <= pushed b) ->
  bar_run l rl l' new rl' -> descSorted l ->
  StronglySorted (fun x y => y <= x) new.
Proof.
  intros Hmono.
  induction 1 as [rl | cut rest rl k rl1 rest' new rl' Hp Hexit Hrun IH];
    intros Hs.
  - constructor.
  - apply StronglySorted_inv in Hs. destruct Hs as [Hs Hall].
    specialize (IH Hs). apply bar_run_from in Hrun.
    assert (Hbelow : Forall (fun y => y <= pushed (Cut.length cut)) new).
    { eapply Forall_impl; [|exact Hrun]. cbn beta.
      intros y (c & Hc & ->). apply Hmono.
      rewrite Forall_forall in Hall. apply Hall; exact Hc. }
    clear - IH Hbelow. induction k as [|k IHk]; [exact IH|].
    cbn [repeat app]. constructor; [exact IHk|].
    apply Forall_app. split; [|exact Hbelow].
    apply Forall_forall. intros y Hy. apply repeat_spec in Hy.
    rewrite Hy. apply Qle_refl.
Qed.

End MoreAllocationFacts.

(** ** The figures of the summary *)

Lemma reduce_sumZ {A : Type} (g : A -> Z) (l : list A) (a : Z) :
  Array.reduce (fun acc x => (acc + g x)%Z) a l
  = (a + fold_right (fun x r => (g x + r)%Z) 0%Z l)%Z.
Proof.
  unfold Array.reduce. revert a.
  induction l as [|x l IH]; intros a; cbn [fold_left fold_right]; [lia|].
  rewrite IH. lia.
Qed.

Lemma reduce_sumQ {A : Type} (g : A -> Q) (l : list A) (a : Q) :
  Array.reduce (fun acc x => acc + g x) a l == a + sumQ (map g l).
Proof.
  unfold Array.reduce. revert a.
  induction l as [|x l IH]; intros a; cbn [fold_left map sumQ fold_right].
  - lra.
  - fold (sumQ (map g l)). rewrite IH. lra.
Qed.

Lemma countIf_anyLength (l : list Q) :
  countIf anyLength l = Z.of_nat (List.length l).
Proof.
  unfold countIf. f_equal. f_equal.
  induction l as [|x l IH]; [reflexivity|]. cbn. rewrite IH. reflexivity.
Qed.

Lemma reduce_placedCount (p : Q -> bool) (plans : list CutPlan.t) :
  Array.reduce
    (fun sum plan =>
       (sum + Z.of_nat (List.length (filter p (CutPlan.cuts plan))))%Z)
    0%Z plans
  = placedCount p plans.
Proof.
  rewrite reduce_sumZ. cbn [Z.add].
  induction plans as [|plan plans IH]; [reflexivity|].
  cbn [fold_right placedCount]. rewrite IH. reflexivity.
Qed.

Lemma totalCutsMade_placedCount (s : Page.State) :
  Page.totalCutsMade s
  = placedCount anyLength (Page.calculateOptimalCutPlan s).
Proof.
  unfold Page.totalCutsMade, Page.cutPlans. rewrite reduce_sumZ. cbn [Z.add].
  induction (Page.calculateOptimalCutPlan s) as [|plan plans IH];
    [reflexivity|].
  cbn [fold_right placedCount]. rewrite IH, countIf_anyLength. reflexivity.
Qed.

Lemma cutsMadeFor_placedCount (s : Page.State) (cut : Cut.t) :
  Page.cutsMadeFor s cut
  = placedCount (fun c => Qeq_bool c (Cut.length cut))
      (Page.calculateOptimalCutPlan s).
Proof. apply reduce_placedCount. Qed.

Lemma totalCutsNeeded_demand (s : Page.State) :
  (forall cut, In cut (Page.cuts s) -> (0 <= Cut.quantity cut)%Z) ->
  Page.totalCutsNeeded s = demand anyLength (Page.cuts s).
Proof.
  unfold Page.totalCutsNeeded. rewrite reduce_sumZ. cbn [Z.add].
  induction (Page.cuts s) as [|cut l IH]; intros Hq; [reflexivity|].
  cbn [fold_right demand anyLength].
  rewrite IH by (intros c Hc; apply Hq; right; exact Hc).
  specialize (Hq cut (or_introl eq_refl)). lia.
Qed.

(** The pieces placed are the demand of the caller's requests less the
    demand left when the first loop stops. *)
Lemma placed_any_le_demand (s : Page.State) :
  (placedCount anyLength (Page.calculateOptimalCutPlan s)
   <= demand anyLength (Page.cuts s))%Z.
Proof.
  unfold Page.calculateOptimalCutPlan, Page.plansMm.
  rewrite placedCount_display.
  change (fun x => anyLength (Page.convertFromMm s x)) with anyLength.
  assert (Hd : demand anyLength (Page.sortedCuts s)
               = demand anyLength (Page.cuts s))
    by (rewrite demand_sortedCuts; reflexivity).
  rewrite <- Hd. apply allocate_demand. reflexivity.
Qed.

(** X1.  The summary never reports more cuts made than cuts needed, when
    no quantity is negative. *)
Theorem total_cuts_made_le_needed (s : Page.State) :
  (forall cut, In cut (Page.cuts s) -> (0 <= Cut.quantity cut)%Z) ->
  (Page.totalCutsMade s <= Page.totalCutsNeeded s)%Z.
Proof.
  intros Hq. rewrite totalCutsMade_placedCount, (totalCutsNeeded_demand s Hq).
  apply placed_any_le_demand.
Qed.

Lemma placedCount_oversized (s : Page.State) (len : Q) :
  Page.convertToMm s (Page.extrusionLength s)
  < Page.convertToMm s len + Page.getKerfInMm s ->
  placedCount (fun x => Qeq_bool x len) (Page.calculateOptimalCutPlan s)
  = 0%Z.
Proof.
  intros Hbig.
  unfold Page.calculateOptimalCutPlan. rewrite placedCount_display.
  pose proof (plansMm_placed_bound s) as Hall.
  induction Hall as [|p plans Hp Hall IH]; [reflexivity|].
  cbn [placedCount]. rewrite IH, countIf_none; [reflexivity|].
  eapply Forall_impl; [|exact Hp]. cbn beta.
  intros x (len' & -> & Hlen').
  destruct (Qeq_bool (Page.convertFromMm s (len' - Page.getKerfInMm s)) len)
    eqn:Heq; [|reflexivity].
  apply Qeq_bool_iff in Heq.
  pose proof (convertToMm_convertFromMm s (len' - Page.getKerfInMm s)) as Hback.
  unfold Page.convertToMm in *. rewrite Heq in Hback. lra.
Qed.

Lemma getKerfInMm_nonneg (s : Page.State) :
  0 <= Page.kerfWidth s -> 0 <= Page.getKerfInMm s.
Proof.
  intros Hk. unfold Page.getKerfInMm.
  pose proof (unitConversions_pos (Page.kerfUnit s)).
  apply Qmult_le_0_compat; lra.
Qed.

(** X2.  A request marked as exceeding the extrusion length is longer than
    the extrusion in the unit of the form, and with a kerf that is not
    negative its summary line counts no cut. *)
Theorem marked_request_gets_no_cut (s : Page.State) (cut : Cut.t) :
  0 <= Page.kerfWidth s ->
  Page.exceedsExtrusionLength s cut = true ->
  Page.extrusionLength s < Cut.length cut
  /\ Page.cutsMadeFor s cut = 0%Z.
Proof.
  intros Hk Hmark. unfold Page.exceedsExtrusionLength in Hmark.
  apply negb_true_iff in Hmark.
  assert (Hgt : Page.convertToMm s (Page.extrusionLength s)
                < Page.convertToMm s (Cut.length cut)).
  { destruct (Qlt_le_dec (Page.convertToMm s (Page.extrusionLength s))
                (Page.convertToMm s (Cut.length cut))) as [H|H]; [exact H|].
    apply Qle_bool_iff in H. congruence. }
  split.
  - unfold Page.convertToMm in Hgt.
    apply Qmult_lt_r in Hgt; [exact Hgt | apply unitConversions_pos].
  - rewrite cutsMadeFor_placedCount. apply placedCount_oversized.
    pose proof (getKerfInMm_nonneg s Hk). lra.
Qed.

(** ** The whole run, bar after bar *)

Section WholeRun.
Variable stockLength : Q.
Variable numExtrusions : Z.
Variable pushed : Q -> Q.

Local Abbreviation allocate := (allocate stockLength numExtrusions pushed).
Local Abbreviation fill_run := (fill_run stockLength numExtrusions pushed).

Lemma laterCut_In (l l' : list Cut.t) (cut' : Cut.t) :
  Forall2 laterCut l l' -> In cut' l' ->
  exists cut, In cut l /\ laterCut cut cut'.
Proof.
  induction 1 as [|a b l l' Hab Hl IH]; intros Hin; [contradiction|].
  destruct Hin as [<- | Hin].
  - exists a. split; [left; reflexivity | exact Hab].
  - destruct (IH Hin) as (c & Hc & Hlater).
    exists c. split; [right; exact Hc | exact Hlater].
Qed.

Lemma laterCut_Forall (P : Q -> Prop) (l l' : list Cut.t) :
  Forall2 laterCut l l' ->
  Forall (fun cut => P (Cut.length cut)) l ->
  Forall (fun cut => P (Cut.length cut)) l'.
Proof.
  induction 1 as [|a b l l' [Hlen _] Hl IH]; intros Hall; [constructor|].
  apply Forall_cons_iff in Hall. destruct Hall as [Ha Hall].
  constructor; [rewrite Hlen; exact Ha | apply IH; exact Hall].
Qed.

Lemma demand_positive (sel : Q -> bool) (l : list Cut.t) :
  (0 < demand sel l)%Z ->
  exists cut, In cut l /\ sel (Cut.length cut) = true
              /\ (0 < Cut.quantity cut)%Z.
Proof.
  induction l as [|c l IH]; cbn [demand]; [lia|]. intros Hpos.
  destruct (sel (Cut.length c)) eqn:Hsel.
  - destruct (Z.ltb_spec 0 (Cut.quantity c)) as [Hq|Hq].
    + exists c. repeat split; [left; reflexivity | exact Hsel | exact Hq].
    + destruct IH as (c' & Hin & H); [lia|].
      exists c'. split; [right; exact Hin | exact H].
  - destruct (IH Hpos) as (c' & Hin & H).
    exists c'. split; [right; exact Hin | exact H].
Qed.

Lemma demandLeft_In (rc : list Cut.t) (cut : Cut.t) :
  In cut rc -> (0 < Cut.quantity cut)%Z -> demandLeft rc = true.
Proof.
  intros Hin Hq. unfold demandLeft, Array.some. apply existsb_exists.
  exists cut. split; [exact Hin | apply Z.ltb_lt; exact Hq].
Qed.

(** Bars are padded only once no request wants a piece. *)
Lemma fill_run_padding (idx idx' : Z) (rc rc' : list Cut.t)
    (new : list CutPlan.t) :
  fill_run idx rc new idx' rc' ->
  barsLeft numExtrusions idx' <> 0%nat -> demandLeft rc' = false.
Proof.
  intros Hfill Hpad. apply fill_run_final in Hfill.
  apply andb_false_iff in Hfill. destruct Hfill as [Hidx | Hleft];
    [|exact Hleft].
  apply Z.ltb_ge in Hidx. unfold barsLeft in Hpad. lia.
Qed.

Lemma fill_run_tight (idx idx' : Z) (rc rc' : list Cut.t)
    (new : list CutPlan.t) :
  fill_run idx rc new idx' rc' ->
  Forall (fun cut => 0 <= Cut.length cut) rc ->
  forall cut', In cut' rc' -> (0 < Cut.quantity cut')%Z ->
  Forall (fun plan => CutPlan.waste plan < Cut.length cut') new.
Proof.
  induction 1 as [idx rc Hguard
    | idx rc rc1 plan plans idx' rc' Hguard Heq Hfill IH];
    intros Hpos cut' Hin Hq.
  - constructor.
  - apply cutBar_bar_run in Heq.
    pose proof (bar_run_later _ _ _ _ _ _ Heq) as Hlater.
    pose proof (laterCut_Forall (fun x => 0 <= x) _ _ Hlater Hpos) as Hpos1.
    constructor; [|apply IH; assumption].
    pose proof (bar_run_tight _ _ _ _ _ _ Heq Hpos) as Htight.
    cbn beta in Htight.
    apply fill_run_later in Hfill.
    destruct (laterCut_In _ _ _ Hfill Hin) as (c1 & Hc1 & Hlen & Hle).
    rewrite Forall_forall in Htight. rewrite Hlen.
    apply Htight; [exact Hc1 | lia].
Qed.

(** If pieces of a class are still wanted at the end, one request of the
    class is longer than what any bar has left. *)
Lemma allocate_tight (sel selp : Q -> bool) (sorted : list Cut.t) :
  (forall len, selp (pushed len) = sel len) ->
  Forall (fun cut => 0 <= Cut.length cut) sorted ->
  (placedCount selp (allocate sorted) < demand sel sorted)%Z ->
  exists cut, sel (Cut.length cut) = true
    /\ Forall (fun plan => CutPlan.waste plan < Cut.length cut)
         (allocate sorted).
Proof.
  intros Hsel Hpos Hless.
  destruct (allocate_run stockLength numExtrusions pushed sorted)
    as (new & idx' & rc' & Hfill & Heq).
  rewrite Heq in *. clear Heq.
  pose proof (fill_run_demand _ _ _ sel selp Hsel _ _ _ _ _ Hfill) as Hacc.
  rewrite placedCount_app, placedCount_empty in Hless.
  destruct (demand_positive sel rc') as (c & Hin & Hc & Hq); [lia|].
  exists c. split; [exact Hc|]. apply Forall_app. split.
  - eapply fill_run_tight; eassumption.
  - destruct (barsLeft numExtrusions idx') as [|k] eqn:Hk; [constructor|].
    assert (Hno : demandLeft rc' = false).
    { eapply fill_run_padding; [exact Hfill | rewrite Hk; discriminate]. }
    rewrite (demandLeft_In rc' c Hin Hq) in Hno. discriminate.
Qed.

Lemma fill_run_busy (idx idx' : Z) (rc rc' : list Cut.t)
    (new : list CutPlan.t) :
  fill_run idx rc new idx' rc' ->
  Forall (fun cut => Cut.length cut <= stockLength) rc ->
  Forall (fun plan => CutPlan.cuts plan <> []) new.
Proof.
  induction 1 as [idx rc Hguard
    | idx rc rc1 plan plans idx' rc' Hguard Heq Hfill IH];
    intros Hfit.
  - constructor.
  - apply cutBar_bar_run in Heq.
    pose proof (bar_run_later _ _ _ _ _ _ Heq) as Hlater.
    constructor;
      [|apply IH;
        exact (laterCut_Forall (fun x => x <= stockLength) _ _ Hlater Hfit)].
    apply (bar_run_progress _ _ _ _ _ _ Heq).
    apply andb_true_iff in Hguard. destruct Hguard as [_ Hleft].
    unfold demandLeft, Array.some in Hleft. apply existsb_exists in Hleft.
    destruct Hleft as (c & Hin & Hq). apply Z.ltb_lt in Hq.
    apply Exists_exists. exists c. split; [exact Hin|].
    split; [exact Hq|]. rewrite Forall_forall in Hfit. apply Hfit; exact Hin.
Qed.

(** When every request fits the stock length, a bar without cuts means
    that all the demand has been cut. *)
Lemma allocate_spare (sorted : list Cut.t) :
  Forall (fun cut => Cut.length cut <= stockLength) sorted ->
  Exists emptyPlan (allocate sorted) ->
  placedCount anyLength (allocate sorted) = demand anyLength sorted.
Proof.
  intros Hfit Hspare.
  destruct (allocate_run stockLength numExtrusions pushed sorted)
    as (new & idx' & rc' & Hfill & Heq).
  rewrite Heq in *. clear Heq.
  pose proof (fill_run_demand stockLength numExtrusions pushed
                anyLength anyLength (fun _ => eq_refl)
                _ _ _ _ _ Hfill) as Hacc.
  rewrite placedCount_app, placedCount_empty.
  apply Exists_app in Hspare. destruct Hspare as [Hnew | Hpad].
  - pose proof (fill_run_busy _ _ _ _ _ Hfill Hfit) as Hbusy.
    apply Exists_exists in Hnew. destruct Hnew as (p & Hp & Hempty).
    rewrite Forall_forall in Hbusy. elim (Hbusy p Hp Hempty).
  - assert (Hno : demandLeft rc' = false).
    { eapply fill_run_padding; [exact Hfill|].
      intros Hk. rewrite Hk in Hpad. inversion Hpad. }
    apply demandLeft_false in Hno. lia.
Qed.

End WholeRun.

(** ** What the summary tells about the bars *)

Lemma sortedCuts_Forall (s : Page.State) (P : Q -> Prop) :
  (forall cut, In cut (Page.cuts s) ->
     P (Page.convertToMm s (Cut.length cut) + Page.getKerfInMm s)) ->
  Forall (fun cut => P (Cut.length cut)) (Page.sortedCuts s).
Proof.
  intros Hall. unfold Page.sortedCuts.
  apply (Permutation_Forall
           (Permutation_sym (sort_perm byLengthDesc (Page.convertedCuts s)))).
  unfold Page.convertedCuts. apply Forall_forall. intros c Hc.
  apply in_map_iff in Hc. destruct Hc as (cut & <- & Hcut).
  cbn [Cut.length]. apply Hall; exact Hcut.
Qed.

Lemma filter_ignores_index {A : Type} (p : A -> bool) (l : list A) :
  Array.filter (fun x _ => p x) l = filter p l.
Proof.
  unfold Array.filter. generalize 0%nat.
  induction l as [|x l IH]; intros from; [reflexivity|].
  cbn [Array.filterFrom filter]. rewrite IH. reflexivity.
Qed.

Lemma calculateOptimalCutPlan_empties_last (s : Page.State)
    (pre post : list CutPlan.t) (p : CutPlan.t) :
  Page.calculateOptimalCutPlan s = pre ++ p :: post ->
  emptyPlan p -> Forall emptyPlan post.
Proof.
  unfold Page.calculateOptimalCutPlan. intros Hsplit Hp.
  apply map_eq_app in Hsplit. destruct Hsplit as (pre' & rest & Hall & _ & Hrest).
  apply map_eq_cons in Hrest. destruct Hrest as (p' & post' & -> & Hp' & Hpost).
  subst p post. unfold emptyPlan in Hp.
  cbn [Page.displayPlan CutPlan.cuts] in Hp. apply map_eq_nil in Hp.
  unfold Page.plansMm in Hall. apply allocate_empties_last in Hall; [|exact Hp].
  apply Forall_forall. intros q Hq.
  apply in_map_iff in Hq. destruct Hq as (q' & <- & Hq').
  rewrite Forall_forall in Hall. specialize (Hall q' Hq').
  unfold emptyPlan in *. cbn [Page.displayPlan CutPlan.cuts].
  rewrite Hall. reflexivity.
Qed.

(** In a sequence whose empty plans come last, the plans with cuts are
    the first ones, as many as the filter counts. *)
Lemma used_prefix (plans : list CutPlan.t) :
  (forall pre p post,
     plans = pre ++ p :: post -> emptyPlan p -> Forall emptyPlan post) ->
  forall (i : nat) (plan : CutPlan.t),
  nth_error plans i = Some plan ->
  (CutPlan.cuts plan <> [] <->
   (i < List.length
          (filter (fun plan => (0 <? List.length (CutPlan.cuts plan))%nat)
                  plans))%nat).
Proof.
  set (used := fun plan : CutPlan.t =>
                 (0 <? List.length (CutPlan.cuts plan))%nat).
  assert (Hused : forall p, used p = false <-> CutPlan.cuts p = []).
  { intros p. unfold used. destruct (CutPlan.cuts p); cbn; split;
      congruence. }
  induction plans as [|a plans IH]; intros Hlast i plan Hnth.
  - destruct i; discriminate.
  - assert (Htail : forall pre p post,
               plans = pre ++ p :: post -> emptyPlan p ->
               Forall emptyPlan post).
    { intros pre p post -> Hp. apply (Hlast (a :: pre) p post eq_refl Hp). }
    cbn [filter]. destruct (used a) eqn:Ha.
    + cbn [List.length].
      assert (Hcuts : CutPlan.cuts a <> []).
      { intros H. apply Hused in H. congruence. }
      destruct i as [|i]; cbn [nth_error] in Hnth.
      * injection Hnth as <-. split; [lia | intros _; exact Hcuts].
      * rewrite (IH Htail i plan Hnth). lia.
    + apply Hused in Ha.
      pose proof (Hlast [] a plans eq_refl Ha) as Hall.
      assert (Hnone : filter used plans = []).
      { clear - Hall Hused. induction Hall as [|q l Hq Hl IHl]; [reflexivity|].
        cbn [filter]. rewrite (proj2 (Hused q) Hq). exact IHl. }
      rewrite Hnone. cbn [List.length].
      assert (Hplan : CutPlan.cuts plan = []).
      { destruct i as [|i]; cbn [nth_error] in Hnth.
        - injection Hnth as <-. exact Ha.
        - apply nth_error_In in Hnth. rewrite Forall_forall in Hall.
          apply Hall; exact Hnth. }
      split; [intros H; elim (H Hplan) | lia].
Qed.

(** X3.  "Extrusions: k of n used": the plans with cuts are exactly the
    first [k] plans. *)
Theorem used_extrusions_come_first (s : Page.State) (i : nat)
    (plan : CutPlan.t) :
  nth_error (Page.cutPlans s) i = Some plan ->
  (CutPlan.cuts plan <> [] <-> (i < Page.extrusionsUsed s)%nat).
Proof.
  intros Hnth. unfold Page.extrusionsUsed. rewrite filter_ignores_index.
  apply used_prefix; [|exact Hnth].
  intros pre p post. apply calculateOptimalCutPlan_empties_last.
Qed.

Lemma plansMm_balance (s : Page.State) (sorted : list Cut.t) :
  Forall (fun p => sumQ (CutPlan.cuts p)
                   + Page.getKerfInMm s
                     * inject_Z (Z.of_nat (List.length (CutPlan.cuts p)))
                   + CutPlan.waste p
                   == Page.convertToMm s (Page.extrusionLength s))
         (Page.plansMm s sorted).
Proof.
  unfold Page.plansMm.
  apply allocate_Forall with (I := fun _ => True);
    [| cbn; change (inject_Z 0) with 0; lra | exact I].
  intros rc rc' new rl _ Hrun. split; [exact I|].
  cbn [CutPlan.cuts CutPlan.waste].
  apply (bar_run_balance _ (fun x => x + Page.getKerfInMm s)) in Hrun;
    [|intros len; lra].
  rewrite sumQ_add_each in Hrun. exact Hrun.
Qed.

(** X4.  Over the whole result, in millimetres: the total waste, the
    length of all the pieces and one kerf per cut made add up to
    [numExtrusions] stock lengths. *)
Theorem total_waste_balance (s : Page.State) :
  (0 <= Page.numExtrusions s)%Z ->
  Page.convertToMm s (Page.totalWaste s)
  + Page.convertToMm s (cutLength (Page.cutPlans s))
  + Page.getKerfInMm s * inject_Z (Page.totalCutsMade s)
  == inject_Z (Page.numExtrusions s)
     * Page.convertToMm s (Page.extrusionLength s).
Proof.
  intros Hn.
  assert (Hlen : Page.numExtrusions s
                 = Z.of_nat (List.length (Page.plansMm s (Page.sortedCuts s)))).
  { unfold Page.plansMm. rewrite allocate_length. lia. }
  rewrite Hlen, totalCutsMade_placedCount. clear Hlen Hn.
  unfold Page.totalWaste. unfold Page.convertToMm at 1.
  rewrite reduce_sumQ.
  unfold Page.cutPlans, Page.calculateOptimalCutPlan.
  pose proof (plansMm_balance s (Page.sortedCuts s)) as Hall.
  induction Hall as [|p plans Hp Hall IH].
  - cbn. unfold Page.convertToMm. change (inject_Z 0) with 0. lra.
  - cbn [map cutLength sumQ fold_right placedCount List.length
         Page.displayPlan CutPlan.cuts CutPlan.waste] in *.
    fold (sumQ (map CutPlan.waste (map (Page.displayPlan s) plans))) in *.
    fold (cutLength (map (Page.displayPlan s) plans)) in *.
    rewrite countIf_anyLength, length_map, inject_Z_plus, inject_Z_succ.
    pose proof (sumQ_map_convertFromMm s (CutPlan.cuts p)) as Hcuts.
    pose proof (convertToMm_convertFromMm s (CutPlan.waste p)) as Hwaste.
    unfold Page.convertToMm, cutLength, sumQ in *. lra.
Qed.

Lemma StronglySorted_map_desc (f : Q -> Q) (l : list Q) :
  (forall a b, a <= b -> f a <= f b) ->
  StronglySorted (fun x y => y <= x) l ->
  StronglySorted (fun x y => y <= x) (map f l).
Proof.
  intros Hmono. induction 1 as [|x l Hs IH Hall]; [constructor|].
  cbn [map]. constructor; [exact IH|].
  apply Forall_forall. intros y Hy. apply in_map_iff in Hy.
  destruct Hy as (y' & <- & Hy'). apply Hmono.
  rewrite Forall_forall in Hall. apply Hall; exact Hy'.
Qed.

(** X5.  On every bar the cuts are listed from the longest to the
    shortest. *)
Theorem plan_cuts_descending (s : Page.State) (plan : CutPlan.t) :
  In plan (Page.cutPlans s) ->
  StronglySorted (fun x y => y <= x) (CutPlan.cuts plan).
Proof.
  intros Hin. apply in_calculateOptimalCutPlan in Hin.
  destruct Hin as (p & Hp & ->).
  assert (Hall : Forall (fun p => StronglySorted (fun x y => y <= x)
                                    (CutPlan.cuts p))
                   (Page.plansMm s (Page.sortedCuts s))).
  { unfold Page.plansMm. apply allocate_Forall with (I := descSorted).
    - intros rc rc' new rl Hs Hrun. split.
      + apply (descSorted_lengths rc); [|exact Hs].
        eapply bar_run_lengths; exact Hrun.
      + cbn [CutPlan.cuts].
        apply (bar_run_descending _ _ _ _ _ _) with (3 := Hs) in Hrun;
          [exact Hrun|].
        intros a b Hab. lra.
    - constructor.
    - apply sort_descSorted. }
  rewrite Forall_forall in Hall. specialize (Hall p Hp).
  cbn [Page.displayPlan CutPlan.cuts].
  apply StronglySorted_map_desc; [|exact Hall].
  intros a b Hab. unfold Page.convertFromMm.
  pose proof (unitConversions_pos (Page.unit s)) as Hf.
  apply Qmult_le_compat_r; [exact Hab|].
  apply Qlt_le_weak. apply Qinv_lt_0_compat. exact Hf.
Qed.



Lemma filter_short_Exists {A : Type} (p : A -> bool) (l : list A) :
  (List.length (filter p l) < List.length l)%nat ->
  Exists (fun x => p x = false) l.
Proof.
  induction l as [|x l IH]; cbn [filter List.length]; [lia|].
  destruct (p x) eqn:Hp; cbn [List.length]; intros Hlt.
  - apply Exists_cons_tl. apply IH. lia.
  - apply Exists_cons_hd. exact Hp.
Qed.

(** X7.  With the form in millimetres and no kerf, when no request is
    longer than the extrusion and the summary reports fewer extrusions
    used than available, every requested piece has been cut. *)
Theorem spare_extrusion_means_all_cut (s : Page.State) :
  Page.unit s = mm ->
  Page.kerfWidth s == 0 ->
  (forall c, In c (Page.cuts s) -> (0 <= Cut.quantity c)%Z) ->
  (forall c, In c (Page.cuts s) -> Cut.length c <= Page.extrusionLength s) ->
  (Page.extrusionsUsed s < List.length (Page.cutPlans s))%nat ->
  Page.totalCutsMade s = Page.totalCutsNeeded s.
Proof.
  intros Hmm Hkerf Hq Hlen Hspare.
  apply getKerfInMm_zero in Hkerf.
  assert (Hfit : forall c, In c (Page.cuts s) ->
                   Page.convertToMm s (Cut.length c) + Page.getKerfInMm s
                   <= Page.convertToMm s (Page.extrusionLength s)).
  { intros c Hc. specialize (Hlen c Hc). unfold Page.convertToMm.
    rewrite Hmm. cbn [unitConversions]. lra. }
  unfold Page.extrusionsUsed in Hspare. rewrite filter_ignores_index in Hspare.
  apply filter_short_Exists in Hspare.
  assert (Hempty : Exists emptyPlan (Page.plansMm s (Page.sortedCuts s))).
  { unfold Page.cutPlans, Page.calculateOptimalCutPlan in Hspare.
    apply Exists_exists in Hspare. destruct Hspare as (plan & Hin & Hnone).
    apply in_map_iff in Hin. destruct Hin as (p & <- & Hp).
    apply Exists_exists. exists p. split; [exact Hp|].
    unfold emptyPlan. cbn [Page.displayPlan CutPlan.cuts] in Hnone.
    rewrite length_map in Hnone.
    destruct (CutPlan.cuts p); [reflexivity | discriminate]. }
  unfold Page.plansMm in Hempty. apply allocate_spare in Hempty;
    [|apply (sortedCuts_Forall s
               (fun x => x <= Page.convertToMm s (Page.extrusionLength s)));
      exact Hfit].
  rewrite totalCutsMade_placedCount, (totalCutsNeeded_demand s Hq).
  unfold Page.calculateOptimalCutPlan, Page.plansMm.
  rewrite placedCount_display.
  change (fun x => anyLength (Page.convertFromMm s x)) with anyLength.
  rewrite Hempty, demand_sortedCuts. reflexivity.
Qed.

(** ** The list of requests: adding, changing and removing a row *)

Lemma filterFrom_all {A : Type} (p : A -> nat -> bool) (l : list A) :
  forall from : nat,
  (forall x i, (from <= i)%nat -> p x i = true) ->
  Array.filterFrom from p l = l.
Proof.
  induction l as [|x l IH]; intros from Hp; [reflexivity|].
  cbn [Array.filterFrom]. rewrite Hp by lia. f_equal.
  apply IH. intros y i Hi. apply Hp. lia.
Qed.

Lemma filterFrom_remove (index : nat) (l : list Cut.t) :
  forall from : nat,
  (from <= index)%nat ->
  Array.filterFrom from (fun _ i => negb (i =? index)%nat) l
  = firstn (index - from) l ++ skipn (S (index - from)) l.
Proof.
  induction l as [|x l IH]; intros from Hle.
  - rewrite firstn_nil, skipn_nil. reflexivity.
  - cbn [Array.filterFrom]. destruct (Nat.eqb_spec from index) as [->|Hne].
    + rewrite Nat.sub_diag. cbn [negb firstn skipn app].
      apply filterFrom_all. intros y i Hi.
      apply negb_true_iff. apply Nat.eqb_neq. lia.
    + cbn [negb]. rewrite IH by lia.
      replace (index - from)%nat with (S (index - S from)) by lia.
      reflexivity.
Qed.

Lemma removeCut_splice_eq (index : nat) (prevCuts : list Cut.t) :
  Page.removeCut index prevCuts
  = firstn index prevCuts ++ skipn (S index) prevCuts.
Proof.
  unfold Page.removeCut, Array.filter.
  rewrite filterFrom_remove by lia. rewrite Nat.sub_0_r. reflexivity.
Qed.

(** X8.  [removeCut] takes out the row at [index] and keeps the others in
    their order; an index past the end removes nothing. *)
Theorem removeCut_splice (index : nat) (prevCuts : list Cut.t) :
  Page.removeCut index prevCuts
  = firstn index prevCuts ++ skipn (S index) prevCuts
  /\ List.length (Page.removeCut index prevCuts)
     = (if (index <? List.length prevCuts)%nat
        then List.length prevCuts - 1 else List.length prevCuts)%nat.
Proof.
  rewrite removeCut_splice_eq. split; [reflexivity|].
  rewrite length_app, length_firstn, length_skipn.
  destruct (Nat.ltb_spec index (List.length prevCuts)); lia.
Qed.

(** X9.  Removing the row that [addCut] has just appended gives the list
    back, and the appended row asks for one piece of length 100. *)
Theorem removeCut_addCut (prevCuts : list Cut.t) :
  Page.removeCut (List.length prevCuts) (Page.addCut prevCuts) = prevCuts
  /\ nth_error (Page.addCut prevCuts) (List.length prevCuts)
     = Some (Cut.mk 100 1).
Proof.
  split.
  - unfold Page.removeCut, Array.filter. rewrite filterFrom_remove by lia.
    rewrite Nat.sub_0_r. unfold Page.addCut.
    rewrite firstn_app, Nat.sub_diag, firstn_all. cbn [firstn].
    rewrite skipn_app, skipn_all2 by lia.
    replace (S (List.length prevCuts) - List.length prevCuts)%nat
      with 1%nat by lia.
    cbn [skipn app]. rewrite !app_nil_r. reflexivity.
  - unfold Page.addCut. rewrite nth_error_app2 by lia.
    rewrite Nat.sub_diag. reflexivity.
Qed.

(** X10.  [updateCut] writes one field of the row at [index] and leaves
    every other row and the other field alone; without a row at [index]
    it fails (the TypeError of the source). *)
Theorem updateCut_splice (index : nat) (fv : Page.FieldValue)
    (prevCuts : list Cut.t) :
  Page.updateCut index fv prevCuts
  = match nth_error prevCuts index with
    | Some cut =>
        Some (firstn index prevCuts
              ++ Page.assignField cut fv :: skipn (S index) prevCuts)
    | None => None
    end.
Proof.
  revert index. induction prevCuts as [|c l IH]; intros [|index];
    cbn [Page.updateCut nth_error firstn skipn app]; try reflexivity.
  rewrite IH. destruct (nth_error l index); reflexivity.
Qed.

(** ** Rounding to two decimals *)

Lemma Qfloor_bounds (x : Q) :
  inject_Z (Qfloor x) <= x /\ x < inject_Z (Qfloor x) + 1.
Proof.
  split; [apply Qfloor_le|].
  pose proof (Qlt_floor x) as H. rewrite inject_Z_plus in H. exact H.
Qed.

Lemma Qfloor_half (z : Z) : Qfloor (inject_Z z + (1 # 2)) = z.
Proof.
  destruct (Qfloor_bounds (inject_Z z + (1 # 2))) as [Hle Hlt].
  set (n := Qfloor (inject_Z z + (1 # 2))) in *.
  assert (H1 : inject_Z n < inject_Z (z + 1))
    by (rewrite inject_Z_plus; change (inject_Z 1) with 1; lra).
  assert (H2 : inject_Z z < inject_Z (n + 1))
    by (rewrite inject_Z_plus; change (inject_Z 1) with 1; lra).
  rewrite <- Zlt_Qlt in H1, H2. lia.
Qed.

Lemma toFixed2_large (x : Q) :
  Qle_bool (inject_Z (10 ^ 21)) (Qabs x) = true -> Page.toFixed2 x = x.
Proof. intros H. unfold Page.toFixed2. rewrite H. reflexivity. Qed.

Lemma toFixed2_small (x : Q) :
  Qle_bool (inject_Z (10 ^ 21)) (Qabs x) = false ->
  (0 <= x /\ Page.toFixed2 x
             = inject_Z (Qfloor (x * 100 + (1 # 2))) / 100)
  \/ (x < 0 /\ Page.toFixed2 x
               = - (inject_Z (Qfloor (- x * 100 + (1 # 2))) / 100)).
Proof.
  intros Hsmall. unfold Page.toFixed2. rewrite Hsmall. cbn zeta.
  destruct (Qle_bool 0 x) eqn:Hsign.
  - apply Qle_bool_iff in Hsign. left. split; [exact Hsign|].
    rewrite (Qfloor_comp (Qabs x * 100 + (1 # 2)) (x * 100 + (1 # 2)));
      [reflexivity|].
    rewrite (Qabs_pos x Hsign). reflexivity.
  - assert (Hlt : x < 0).
    { destruct (Qlt_le_dec x 0) as [H|H]; [exact H|].
      apply Qle_bool_iff in H. congruence. }
    right. split; [exact Hlt|].
    rewrite (Qfloor_comp (Qabs x * 100 + (1 # 2)) (- x * 100 + (1 # 2)));
      [reflexivity|].
    rewrite (Qabs_neg x) by lra. reflexivity.
Qed.

Lemma div_100 (n : Q) : n / 100 == n * (1 # 100).
Proof. field. Qed.

Lemma toFixed2_ge_1 (x : Q) : 1 <= x -> 1 <= Page.toFixed2 x.
Proof.
  intros Hx.
  destruct (Qle_bool (inject_Z (10 ^ 21)) (Qabs x)) eqn:Hbig.
  - rewrite (toFixed2_large x Hbig). exact Hx.
  - destruct (toFixed2_small x Hbig) as [[Hsign Heq] | [Hsign Heq]]; [|lra].
    rewrite Heq.
    assert (Hn : (100 <= Qfloor (x * 100 + (1 # 2)))%Z).
    { pose proof (Qfloor_resp_le (inject_Z 100) (x * 100 + (1 # 2))) as H.
      rewrite Qfloor_Z in H. apply H.
      change (inject_Z 100) with 100. lra. }
    rewrite Zle_Qle in Hn. change (inject_Z 100) with 100 in Hn.
    rewrite div_100. lra.
Qed.

Lemma toFixed2_near (x : Q) :
  - (1 # 200) <= Page.toFixed2 x - x <= 1 # 200.
Proof.
  destruct (Qle_bool (inject_Z (10 ^ 21)) (Qabs x)) eqn:Hbig.
  - rewrite (toFixed2_large x Hbig). split; lra.
  - destruct (toFixed2_small x Hbig) as [[Hsign Heq] | [Hsign Heq]];
      rewrite Heq, div_100.
    + destruct (Qfloor_bounds (x * 100 + (1 # 2))) as [Hle Hlt].
      split; lra.
    + destruct (Qfloor_bounds (- x * 100 + (1 # 2))) as [Hle Hlt].
      split; lra.
Qed.

(** X11.  [Number(x.toFixed(2))] moves a number by at most 0.005, and
    never takes a number that is at least 1 below 1. *)
Theorem toFixed2_error (x : Q) :
  Qabs (Page.toFixed2 x - x) <= 1 # 200
  /\ (1 <= x -> 1 <= Page.toFixed2 x).
Proof.
  split; [|apply toFixed2_ge_1].
  apply Qabs_Qle_condition. apply toFixed2_near.
Qed.

Lemma toFixed2_hundredths (x : Q) : hundredths x -> Page.toFixed2 x == x.
Proof.
  intros [n Hn].
  destruct (Qle_bool (inject_Z (10 ^ 21)) (Qabs x)) eqn:Hbig.
  - rewrite (toFixed2_large x Hbig). reflexivity.
  - rewrite div_100 in Hn.
    destruct (toFixed2_small x Hbig) as [[Hsign Heq] | [Hsign Heq]];
      rewrite Heq, div_100.
    + rewrite (Qfloor_comp _ (inject_Z n + (1 # 2))) by (rewrite Hn; ring).
      rewrite Qfloor_half, Hn. reflexivity.
    + rewrite (Qfloor_comp _ (inject_Z (- n) + (1 # 2)))
        by (rewrite Hn, inject_Z_opp; ring).
      rewrite Qfloor_half, Hn, inject_Z_opp. ring.
Qed.

(** X12.  Rounding twice is rounding once: what the unit effect has
    written, it leaves alone the next time. *)
Theorem toFixed2_idempotent (x : Q) :
  Page.toFixed2 (Page.toFixed2 x) == Page.toFixed2 x.
Proof.
  destruct (Qle_bool (inject_Z (10 ^ 21)) (Qabs x)) eqn:Hbig.
  - rewrite !(toFixed2_large x Hbig). reflexivity.
  - apply toFixed2_hundredths.
    destruct (toFixed2_small x Hbig) as [[Hsign Heq] | [Hsign Heq]];
      rewrite Heq.
    + eexists. reflexivity.
    + exists (- Qfloor (- x * 100 + (1 # 2)))%Z.
      rewrite inject_Z_opp, !div_100. ring.
Qed.

(** ** The handlers of the form *)

Lemma sameUnit_eq (u v : Unit) : Page.sameUnit u v = true -> u = v.
Proof. destruct u, v; cbn; congruence. Qed.

Lemma updateCut_Forall (P : Cut.t -> Prop) (index : nat)
    (fv : Page.FieldValue) (l l' : list Cut.t) :
  (forall cut, P cut -> P (Page.assignField cut fv)) ->
  Page.updateCut index fv l = Some l' ->
  Forall P l -> Forall P l' /\ List.length l' = List.length l.
Proof.
  intros Hassign. revert index l'.
  induction l as [|c l IH]; intros [|index] l' Heq Hall;
    cbn [Page.updateCut] in Heq; try discriminate.
  - injection Heq as <-. apply Forall_cons_iff in Hall.
    destruct Hall as [Hc Hl]. split; [|reflexivity].
    constructor; [apply Hassign; exact Hc | exact Hl].
  - destruct (Page.updateCut index fv l) as [l1|] eqn:Hrec; [|discriminate].
    injection Heq as <-. apply Forall_cons_iff in Hall.
    destruct Hall as [Hc Hl]. destruct (IH index l1 Hrec Hl) as [Hl1 Hlen].
    split; [constructor; assumption | cbn [List.length]; congruence].
Qed.

Lemma unitEffect_valid (s : Page.State) :
  validState s -> validState (Page.unitEffect s).
Proof.
  intros (Hn & HE & Hk & Hne & Hall).
  pose proof (unitConversions_nonzero (Page.unit s)) as Hf.
  assert (Hround : forall x, 1 <= x ->
            1 <= Page.toFixed2 (x * unitConversions (Page.unit s)
                                / unitConversions (Page.unit s))).
  { intros x Hx. apply toFixed2_ge_1.
    assert (Hback : x * unitConversions (Page.unit s)
                    / unitConversions (Page.unit s) == x) by (field; exact Hf).
    rewrite Hback. exact Hx. }
  unfold validState, Page.unitEffect.
  cbn [Page.numExtrusions Page.extrusionLength Page.kerfWidth Page.cuts].
  repeat split; try assumption.
  - apply Hround; exact HE.
  - destruct (Page.cuts s); [congruence | discriminate].
  - apply Forall_map. eapply Forall_impl; [|exact Hall].
    cbn [Cut.length Cut.quantity]. intros c [Hlen Hq].
    split; [apply Hround; exact Hlen | exact Hq].
Qed.

Lemma handle_valid (s s' : Page.State) (e : Page.Event) :
  validState s -> Page.handle s e = Some s' -> validState s'.
Proof.
  intros Hvalid Hstep. pose proof Hvalid as (Hn & HE & Hk & Hne & Hall).
  destruct e as [parsed | parsed | value | parsed | value
                 | index parsed | index parsed | index | ];
    cbn [Page.handle] in Hstep.
  - injection Hstep as <-. unfold validState. cbn.
    repeat split; try assumption. lia.
  - injection Hstep as <-. unfold validState.
    cbn [Page.numExtrusions Page.extrusionLength Page.kerfWidth Page.cuts].
    repeat split; try assumption.
    change 1 with (inject_Z 1). rewrite <- Zle_Qle. lia.
  - destruct (Page.sameUnit value (Page.unit s)).
    + injection Hstep as <-. exact Hvalid.
    + injection Hstep as <-. apply unitEffect_valid.
      unfold validState. cbn. repeat split; assumption.
  - injection Hstep as <-. unfold validState.
    cbn [Page.numExtrusions Page.extrusionLength Page.kerfWidth Page.cuts].
    repeat split; try assumption. apply Q.le_max_l.
  - injection Hstep as <-. unfold validState. cbn.
    repeat split; assumption.
  - destruct (Page.updateCut index _ (Page.cuts s)) as [l'|] eqn:Hup;
      [|discriminate].
    injection Hstep as <-.
    apply updateCut_Forall with (P := fun cut => 1 <= Cut.length cut
                                       /\ (1 <= Cut.quantity cut)%Z)
      in Hup; [| | exact Hall].
    + destruct Hup as [Hall' Hlen]. unfold validState, Page.setCuts.
      cbn [Page.numExtrusions Page.extrusionLength Page.kerfWidth Page.cuts].
      repeat split; try assumption.
      intros ->. destruct (Page.cuts s); [congruence | discriminate].
    + intros cut [_ Hq]. cbn [Page.assignField Cut.length Cut.quantity].
      split; [apply Q.le_max_l | exact Hq].
  - destruct (Page.updateCut index _ (Page.cuts s)) as [l'|] eqn:Hup;
      [|discriminate].
    injection Hstep as <-.
    apply updateCut_Forall with (P := fun cut => 1 <= Cut.length cut
                                       /\ (1 <= Cut.quantity cut)%Z)
      in Hup; [| | exact Hall].
    + destruct Hup as [Hall' Hlen]. unfold validState, Page.setCuts.
      cbn [Page.numExtrusions Page.extrusionLength Page.kerfWidth Page.cuts].
      repeat split; try assumption.
      intros ->. destruct (Page.cuts s); [congruence | discriminate].
    + intros cut [Hlen _]. cbn [Page.assignField Cut.length Cut.quantity].
      split; [exact Hlen | lia].
  - destruct ((List.length (Page.cuts s) =? 1)%nat
              || negb (index <? List.length (Page.cuts s))%nat) eqn:Hoff;
      [discriminate|].
    injection Hstep as <-. apply orb_false_iff in Hoff.
    destruct Hoff as [Hone Hrow]. apply Nat.eqb_neq in Hone.
    apply negb_false_iff in Hrow. apply Nat.ltb_lt in Hrow.
    unfold validState, Page.setCuts.
    cbn [Page.numExtrusions Page.extrusionLength Page.kerfWidth Page.cuts].
    rewrite removeCut_splice_eq.
    repeat split; try assumption.
    + intros Hnil. apply (f_equal (@List.length Cut.t)) in Hnil.
      rewrite length_app, length_firstn, length_skipn in Hnil.
      cbn [List.length] in Hnil. lia.
    + apply Forall_app. split.
      * rewrite <- (firstn_skipn index (Page.cuts s)) in Hall.
        apply Forall_app in Hall. apply Hall.
      * rewrite <- (firstn_skipn (S index) (Page.cuts s)) in Hall.
        apply Forall_app in Hall. apply Hall.
  - injection Hstep as <-. unfold validState, Page.setCuts, Page.addCut.
    cbn [Page.numExtrusions Page.extrusionLength Page.kerfWidth Page.cuts].
    repeat split; try assumption.
    + intros Hnil. apply app_eq_nil in Hnil. destruct Hnil; discriminate.
    + apply Forall_app. split; [exact Hall|].
      constructor; [|constructor]. cbn. split; [discriminate | lia].
Qed.

Lemma initialState_valid : validState Page.initialState.
Proof.
  apply unitEffect_valid. unfold validState. cbn.
  repeat split; try discriminate; try lia.
  constructor; [|constructor]. cbn. split; [discriminate | lia].
Qed.

(** X13.  Whatever the user types, clicks or selects, the form holds at
    least one extrusion of length at least 1, a kerf that is not negative
    and at least one request, every request with a length and a quantity
    of at least 1. *)
Theorem reachable_valid (s : Page.State) : reachable s -> validState s.
Proof.
  induction 1 as [|s s' e Hreach IH Hstep].
  - exact initialState_valid.
  - exact (handle_valid s s' e IH Hstep).
Qed.

Lemma reachable_validState (s : Page.State) : reachable s -> validState s.
Proof.
  induction 1 as [|s s' e Hreach IH Hstep];
    [exact initialState_valid | exact (handle_valid s s' e IH Hstep)].
Qed.

Lemma cutPlans_waste_nonneg (s : Page.State) :
  0 <= Page.extrusionLength s ->
  Forall (fun plan => 0 <= CutPlan.waste plan) (Page.cutPlans s).
Proof.
  intros Hstock.
  pose proof (unitConversions_pos (Page.unit s)) as Hf.
  assert (Hmm : 0 <= Page.convertToMm s (Page.extrusionLength s)).
  { unfold Page.convertToMm. apply Qmult_le_0_compat; lra. }
  unfold Page.cutPlans, Page.calculateOptimalCutPlan. apply Forall_map.
  assert (Hall : Forall (fun p => 0 <= CutPlan.waste p)
                   (Page.plansMm s (Page.sortedCuts s))).
  { unfold Page.plansMm.
    apply allocate_Forall with (I := fun _ => True); [| exact Hmm | exact I].
    intros rc rc' new rl _ Hrun. split; [exact I|]. cbn [CutPlan.waste].
    eapply bar_run_nonneg; eassumption. }
  eapply Forall_impl; [|exact Hall]. cbn beta. intros p Hp.
  cbn [Page.displayPlan CutPlan.waste]. unfold Page.convertFromMm.
  apply Qle_shift_div_l; lra.
Qed.

(** X14.  In every state the form can reach, the result has exactly
    [numExtrusions] plans, at least one; no waste is negative; and the
    cuts made never exceed the cuts needed. *)
Theorem reachable_plans_sound (s : Page.State) :
  reachable s ->
  Z.of_nat (List.length (Page.cutPlans s)) = Page.numExtrusions s
  /\ (1 <= List.length (Page.cutPlans s))%nat
  /\ Forall (fun plan => 0 <= CutPlan.waste plan) (Page.cutPlans s)
  /\ (Page.totalCutsMade s <= Page.totalCutsNeeded s)%Z.
Proof.
  intros Hreach. apply reachable_validState in Hreach.
  destruct Hreach as (Hn & HE & Hk & Hne & Hall).
  unfold Page.cutPlans at 1 2. rewrite calculateOptimalCutPlan_length.
  split; [lia|]. split; [lia|]. split.
  - apply cutPlans_waste_nonneg. lra.
  - assert (Hq : forall cut, In cut (Page.cuts s) ->
                             (0 <= Cut.quantity cut)%Z).
    { intros cut Hin. rewrite Forall_forall in Hall.
      destruct (Hall cut Hin) as [_ Hq]. lia. }
    rewrite totalCutsMade_placedCount, (totalCutsNeeded_demand s Hq).
    apply placed_any_le_demand.
Qed.

(** X15.  Selecting another unit does not convert the numbers of the
    form: the extrusion length and every request length stay within 0.005
    of what they were, and nothing else changes but the unit. *)
Theorem changeUnit_keeps_numbers (s : Page.State) (value : Unit) :
  exists s' : Page.State,
    Page.handle s (Page.changeUnit value) = Some s'
    /\ Page.unit s' = value
    /\ Page.numExtrusions s' = Page.numExtrusions s
    /\ Page.kerfWidth s' = Page.kerfWidth s
    /\ Page.kerfUnit s' = Page.kerfUnit s
    /\ Qabs (Page.extrusionLength s' - Page.extrusionLength s) <= 1 # 200
    /\ Forall2 (fun cut' cut =>
                  Qabs (Cut.length cut' - Cut.length cut) <= 1 # 200
                  /\ Cut.quantity cut' = Cut.quantity cut)
         (Page.cuts s') (Page.cuts s).
Proof.
  assert (Hsame : forall x, Qabs (x - x) <= 1 # 200).
  { intros x. apply Qabs_Qle_condition. split; lra. }
  assert (Hround : forall x f, ~ f == 0 ->
                     Qabs (Page.toFixed2 (x * f / f) - x) <= 1 # 200).
  { intros x f Hf. apply Qabs_Qle_condition.
    pose proof (toFixed2_near (x * f / f)) as Herr.
    assert (Hback : x * f / f == x) by (field; exact Hf). lra. }
  cbn [Page.handle]. destruct (Page.sameUnit value (Page.unit s)) eqn:Hu.
  - apply sameUnit_eq in Hu. exists s.
    split; [reflexivity|]. split; [congruence|].
    split; [reflexivity|]. split; [reflexivity|]. split; [reflexivity|].
    split; [apply Hsame|].
    induction (Page.cuts s) as [|c l IH]; constructor; [|exact IH].
    split; [apply Hsame | reflexivity].
  - eexists. split; [reflexivity|].
    unfold Page.unitEffect.
    cbn [Page.unit Page.numExtrusions Page.kerfWidth Page.kerfUnit
         Page.extrusionLength Page.cuts].
    split; [reflexivity|]. split; [reflexivity|].
    split; [reflexivity|]. split; [reflexivity|].
    split; [apply Hround; apply unitConversions_nonzero|].
    induction (Page.cuts s) as [|c l IH]; cbn [map]; constructor;
      [|exact IH].
    cbn [Cut.length Cut.quantity].
    split; [apply Hround; apply unitConversions_nonzero | reflexivity].
Qed.

(** ** The kerf-free component on its own *)

Lemma component_demand (s : Component.State) (sel : Q -> bool) :
  demand sel (Component.sortedCuts s) = demand sel (Component.cuts s).
Proof.
  unfold Component.sortedCuts.
  rewrite (demand_perm sel _ _ (sort_perm byLengthDesc _)).
  induction (Component.cuts s) as [|cut l IH]; [reflexivity|].
  cbn [map demand Cut.length Cut.quantity]. rewrite IH. reflexivity.
Qed.

(** X16.  In the kerf-free component the cuts of a plan and its waste
    add up to the extrusion length. *)
Theorem component_conservation (s : Component.State) (plan : CutPlan.t) :
  In plan (Component.calculateOptimalCutPlan s) ->
  sumQ (CutPlan.cuts plan) + CutPlan.waste plan
  == Component.extrusionLength s.
Proof.
  intros Hin.
  assert (Hall : Forall (fun p => sumQ (CutPlan.cuts p) + CutPlan.waste p
                                  == Component.extrusionLength s)
                   (Component.calculateOptimalCutPlan s)).
  { unfold Component.calculateOptimalCutPlan.
    apply allocate_Forall with (I := fun _ => True); [| cbn; lra | exact I].
    intros rc rc' new rl _ Hrun. split; [exact I|].
    cbn [CutPlan.cuts CutPlan.waste].
    apply (bar_run_balance _ (fun x => x)) in Hrun;
      [|intros len; reflexivity].
    rewrite map_id in Hrun. exact Hrun. }
  rewrite Forall_forall in Hall. apply Hall; exact Hin.
Qed.

(** X17.  The kerf-free component returns [numExtrusions] plans, none with
    a negative waste when the extrusion length is not negative. *)
Theorem component_plans_sound (s : Component.State) :
  0 <= Component.extrusionLength s ->
  List.length (Component.calculateOptimalCutPlan s)
  = Z.to_nat (Component.numExtrusions s)
  /\ Forall (fun plan => 0 <= CutPlan.waste plan)
       (Component.calculateOptimalCutPlan s).
Proof.
  intros Hstock. unfold Component.calculateOptimalCutPlan.
  split; [apply allocate_length|].
  apply allocate_Forall with (I := fun _ => True); [| exact Hstock | exact I].
  intros rc rc' new rl _ Hrun. split; [exact I|]. cbn [CutPlan.waste].
  eapply bar_run_nonneg; eassumption.
Qed.

(** X18.  In the kerf-free component too, the cuts of one length placed
    over all the plans never exceed the quantity requested for it. *)
Theorem component_satisfaction (s : Component.State) (len : Q) :
  (forall cut, In cut (Component.cuts s) -> (0 <= Cut.quantity cut)%Z) ->
  (placedCount (fun x => Qeq_bool x len)
     (Component.calculateOptimalCutPlan s)
   <= requested len (Component.cuts s))%Z.
Proof.
  intros Hq. rewrite <- (demand_requested len _ Hq).
  rewrite <- (component_demand s).
  unfold Component.calculateOptimalCutPlan.
  apply allocate_demand. reflexivity.
Qed.

(** ** These theorems at work *)

Lemma total_cuts_made_le_needed_witness :
  (forall cut, In cut (Page.cuts shortJob) -> (0 <= Cut.quantity cut)%Z)
  /\ (Page.totalCutsMade shortJob <= Page.totalCutsNeeded shortJob)%Z.
Proof.
  assert (Hq : forall cut, In cut (Page.cuts shortJob) ->
                           (0 <= Cut.quantity cut)%Z).
  { intros cut [<- | []]. simpl. lia. }
  split; [exact Hq | exact (total_cuts_made_le_needed shortJob Hq)].
Defined.

Lemma marked_request_gets_no_cut_witness :
  0 <= Page.kerfWidth oversizedJob
  /\ Page.exceedsExtrusionLength oversizedJob (Cut.mk 1200 1) = true
  /\ Page.extrusionLength oversizedJob < 1200
  /\ Page.cutsMadeFor oversizedJob (Cut.mk 1200 1) = 0%Z.
Proof.
  assert (Hk : 0 <= Page.kerfWidth oversizedJob) by (vm_compute; discriminate).
  assert (Hmark : Page.exceedsExtrusionLength oversizedJob (Cut.mk 1200 1)
                  = true) by (vm_compute; reflexivity).
  split; [exact Hk|]. split; [exact Hmark|].
  exact (marked_request_gets_no_cut oversizedJob (Cut.mk 1200 1) Hk Hmark).
Defined.

Lemma used_extrusions_come_first_witness :
  nth_error (Page.cutPlans defaultJob) 6 = Some (CutPlan.mk [] 2000)
  /\ (CutPlan.cuts (CutPlan.mk [] 2000) <> []
      <-> (6 < Page.extrusionsUsed defaultJob)%nat).
Proof.
  assert (Hnth : nth_error (Page.cutPlans defaultJob) 6
                 = Some (CutPlan.mk [] 2000)) by (vm_compute; reflexivity).
  split; [exact Hnth | exact (used_extrusions_come_first defaultJob 6 _ Hnth)].
Defined.

Lemma total_waste_balance_witness :
  (0 <= Page.numExtrusions defaultJob)%Z
  /\ Page.convertToMm defaultJob (Page.totalWaste defaultJob)
     + Page.convertToMm defaultJob (cutLength (Page.cutPlans defaultJob))
     + Page.getKerfInMm defaultJob * inject_Z (Page.totalCutsMade defaultJob)
     == inject_Z (Page.numExtrusions defaultJob)
        * Page.convertToMm defaultJob (Page.extrusionLength defaultJob).
Proof.
  assert (Hn : (0 <= Page.numExtrusions defaultJob)%Z)
    by (vm_compute; discriminate).
  split; [exact Hn | exact (total_waste_balance defaultJob Hn)].
Defined.

Lemma plan_cuts_descending_witness :
  In (CutPlan.mk [150000 # 100] (4968 # 10)) (Page.cutPlans defaultJob)
  /\ StronglySorted (fun x y => y <= x) [150000 # 100].
Proof.
  assert (Hin : In (CutPlan.mk [150000 # 100] (4968 # 10))
                   (Page.cutPlans defaultJob))
    by (vm_compute; left; reflexivity).
  split; [exact Hin | exact (plan_cuts_descending defaultJob _ Hin)].
Defined.


Lemma spare_extrusion_means_all_cut_witness :
  Page.unit zeroKerfJob = mm
  /\ Page.kerfWidth zeroKerfJob == 0
  /\ (forall c, In c (Page.cuts zeroKerfJob) -> (0 <= Cut.quantity c)%Z)
  /\ (forall c, In c (Page.cuts zeroKerfJob) ->
        Cut.length c <= Page.extrusionLength zeroKerfJob)
  /\ (Page.extrusionsUsed zeroKerfJob
      < List.length (Page.cutPlans zeroKerfJob))%nat
  /\ Page.totalCutsMade zeroKerfJob = Page.totalCutsNeeded zeroKerfJob.
Proof.
  assert (Hmm : Page.unit zeroKerfJob = mm) by reflexivity.
  assert (Hk : Page.kerfWidth zeroKerfJob == 0) by reflexivity.
  assert (Hq : forall c, In c (Page.cuts zeroKerfJob) ->
                         (0 <= Cut.quantity c)%Z).
  { intros c [<- | [<- | [<- | []]]]; simpl; lia. }
  assert (Hlen : forall c, In c (Page.cuts zeroKerfJob) ->
                   Cut.length c <= Page.extrusionLength zeroKerfJob).
  { intros c [<- | [<- | [<- | []]]]; vm_compute; discriminate. }
  assert (Hspare : (Page.extrusionsUsed zeroKerfJob
                    < List.length (Page.cutPlans zeroKerfJob))%nat)
    by (vm_compute; lia).
  split; [exact Hmm|]. split; [exact Hk|]. split; [exact Hq|].
  split; [exact Hlen|]. split; [exact Hspare|].
  exact (spare_extrusion_means_all_cut zeroKerfJob Hmm Hk Hq Hlen Hspare).
Defined.

Lemma reachable_valid_witness :
  reachable Page.initialState /\ validState Page.initialState.
Proof.
  split; [exact reach_initial | exact (reachable_valid _ reach_initial)].
Defined.

Lemma reachable_plans_sound_witness :
  reachable Page.initialState
  /\ Z.of_nat (List.length (Page.cutPlans Page.initialState))
     = Page.numExtrusions Page.initialState.
Proof.
  split; [exact reach_initial|].
  exact (proj1 (reachable_plans_sound _ reach_initial)).
Defined.

Lemma component_conservation_witness :
  In (CutPlan.mk [1500] 500) (Component.calculateOptimalCutPlan componentJob)
  /\ sumQ [1500] + 500 == Component.extrusionLength componentJob.
Proof.
  assert (Hin : In (CutPlan.mk [1500] 500)
                   (Component.calculateOptimalCutPlan componentJob))
    by (vm_compute; left; reflexivity).
  split; [exact Hin | exact (component_conservation componentJob _ Hin)].
Defined.

Lemma component_plans_sound_witness :
  0 <= Component.extrusionLength componentJob
  /\ List.length (Component.calculateOptimalCutPlan componentJob)
     = Z.to_nat (Component.numExtrusions componentJob).
Proof.
  assert (Hstock : 0 <= Component.extrusionLength componentJob)
    by (vm_compute; discriminate).
  split; [exact Hstock | exact (proj1 (component_plans_sound _ Hstock))].
Defined.

Lemma component_satisfaction_witness :
  (forall cut, In cut (Component.cuts componentJob) ->
     (0 <= Cut.quantity cut)%Z)
  /\ (placedCount (fun x => Qeq_bool x 1500)
        (Component.calculateOptimalCutPlan componentJob)
      <= requested 1500 (Component.cuts componentJob))%Z.
Proof.
  assert (Hq : forall cut, In cut (Component.cuts componentJob) ->
                           (0 <= Cut.quantity cut)%Z).
  { intros cut [<- | []]. simpl. lia. }
  split; [exact Hq | exact (component_satisfaction componentJob 1500 Hq)].
Defined.
